(** * MapUtil of @terrestris/ol-util: a shallow embedding and its specification

    This development models the static helpers of the [MapUtil] class that
    deal with the layer tree, with the scale / resolution / zoom conversions
    and with legend URLs.

    JavaScript numbers are modelled by [num]: a finite value, a signed
    infinity or NaN.  Finite values are exact rationals, i.e. the model is
    the idealisation of IEEE doubles without rounding; the special values
    follow the IEEE / ECMAScript rules of the operators used by the code. *)

From Stdlib Require Import QArith Qround Qabs Lqa Lia ZArith List String Ascii Bool.
From Stdlib Require Import Permutation DecimalNat.
Import ListNotations.
Open Scope Q_scope.
Set Warnings "-register-all".

(* ------------------------------------------------------------------ *)
(** ** JavaScript numbers *)

Inductive num : Type :=
| Fin (q : Q)
| Inf (neg : bool)          (** [Inf false] is +Infinity, [Inf true] is -Infinity *)
| NaN.

Definition Qltb (a b : Q) : bool := negb (Qle_bool b a).

(** Sign of a non-zero finite value, as the [neg] flag of an infinity. *)
Definition Qneg (a : Q) : bool := Qltb a 0.

Definition num_sub (x y : num) : num :=
  match x, y with
  | Fin a, Fin b => Fin (a - b)
  | NaN, _ | _, NaN => NaN
  | Inf s, Inf t => if Bool.eqb s t then NaN else Inf s
  | Inf s, Fin _ => Inf s
  | Fin _, Inf t => Inf (negb t)
  end.

Definition num_mul (x y : num) : num :=
  match x, y with
  | Fin a, Fin b => Fin (a * b)
  | NaN, _ | _, NaN => NaN
  | Inf s, Inf t => Inf (xorb s t)
  | Inf s, Fin a | Fin a, Inf s =>
      if Qeq_bool a 0 then NaN else Inf (xorb s (Qneg a))
  end.

(** Division; there is no negative zero in the model, [x / 0] takes the
    sign of [x]. *)
Definition num_div (x y : num) : num :=
  match x, y with
  | NaN, _ | _, NaN => NaN
  | Fin a, Fin b =>
      if Qeq_bool b 0 then
        (if Qeq_bool a 0 then NaN else Inf (Qneg a))
      else Fin (a / b)
  | Inf _, Inf _ => NaN
  | Inf s, Fin b => Inf (xorb s (Qneg b))
  | Fin _, Inf _ => Fin 0
  end.

(** [Math.abs] *)
Definition num_abs (x : num) : num :=
  match x with
  | Fin a => Fin (Qabs a)
  | Inf _ => Inf false
  | NaN => NaN
  end.

(** The relational operator [x < y]. *)
Definition num_lt (x y : num) : bool :=
  match x, y with
  | NaN, _ | _, NaN => false
  | Fin a, Fin b => Qltb a b
  | Inf s, Inf t => s && negb t
  | Inf s, Fin _ => s
  | Fin _, Inf t => negb t
  end.

(** The relational operator [x <= y]. *)
Definition num_le (x y : num) : bool :=
  match x, y with
  | NaN, _ | _, NaN => false
  | Fin a, Fin b => Qle_bool a b
  | Inf s, Inf t => s || negb t
  | Inf s, Fin _ => s
  | Fin _, Inf t => negb t
  end.

Definition num_ge (x y : num) : bool := num_le y x.

(** [Number.isNaN] *)
Definition isNaN (x : num) : bool :=
  match x with NaN => true | _ => false end.

(** [parseFloat] applied to a number gives the number back. *)
Definition parseFloat (x : num) : num := x.

(** Truthiness of a number ([0] and [NaN] are falsy). *)
Definition num_truthy (x : num) : bool :=
  match x with
  | Fin a => negb (Qeq_bool a 0)
  | Inf _ => true
  | NaN => false
  end.

(** Two numbers denote the same value (NaN is the same value as NaN). *)
Definition num_same (x y : num) : Prop :=
  match x, y with
  | Fin a, Fin b => a == b
  | Inf s, Inf t => s = t
  | NaN, NaN => True
  | _, _ => False
  end.

(** [ToNumber] of a value that may be [undefined]. *)
Definition to_number (o : option num) : num :=
  match o with Some n => n | None => NaN end.

(* ------------------------------------------------------------------ *)
(** ** Units and scale / resolution conversion *)

(** [METERS_PER_UNIT] of [ol/proj/Units] (ol 5.2): the degrees entry is the
    double [2 * Math.PI * 6370997 / 360]; the pixel units have no entry. *)
Definition METERS_PER_UNIT (units : string) : option num :=
  if String.eqb units "degrees" then Some (Fin 111319.49079327357)
  else if String.eqb units "ft" then Some (Fin 0.3048)
  else if String.eqb units "m" then Some (Fin 1)
  else if String.eqb units "us-ft" then Some (Fin (1200 # 3937))
  else None.

Definition recognized_unit (units : string) : bool :=
  match METERS_PER_UNIT units with Some _ => true | None => false end.

Definition getResolutionForScale (scale : num) (units : string) : num :=
  let dpi := num_div (Fin 25.4) (Fin 0.28) in
  let mpu := to_number (METERS_PER_UNIT units) in
  let inchesPerMeter := Fin 39.37 in
  num_div (parseFloat scale) (num_mul (num_mul mpu inchesPerMeter) dpi).

Definition getScaleForResolution (resolution : num) (units : string) : num :=
  let dpi := num_div (Fin 25.4) (Fin 0.28) in
  let mpu := to_number (METERS_PER_UNIT units) in
  let inchesPerMeter := Fin 39.37 in
  num_mul (num_mul (num_mul (parseFloat resolution) mpu) inchesPerMeter) dpi.

(** [Math.round]: the nearest integer, halves rounded up. *)
Definition Math_round (x : num) : num :=
  match x with
  | Fin a => Fin (inject_Z (Qfloor (a + (1 # 2))))
  | _ => x
  end.

(** [roundScale]; [None] is the [undefined] the variable starts with, and
    [Math.round(scale, 10)] ignores its second argument. *)
Definition roundScale (scale : num) : option num :=
  let r0 : option num := None in
  let r1 := if num_lt scale (Fin 100)
            then Some (Math_round scale) else r0 in
  let r2 := if num_ge scale (Fin 100) && num_lt scale (Fin 10000)
            then Some (num_mul (Math_round (num_div scale (Fin 10))) (Fin 10))
            else r1 in
  let r3 := if num_ge scale (Fin 10000) && num_lt scale (Fin 1000000)
            then Some (num_mul (Math_round (num_div scale (Fin 100))) (Fin 100))
            else r2 in
  let r4 := if num_ge scale (Fin 1000000)
            then Some (num_mul (Math_round (num_div scale (Fin 1000))) (Fin 1000))
            else r3 in
  r4.

(* ------------------------------------------------------------------ *)
(** ** Completions: a result or a thrown error *)

(** [TypeError] is thrown by the engine; [InvalidArgument] stands for an
    error a guard of [MapUtil] itself would signal (the class has none). *)
Inductive js_error : Type :=
| TypeError
| InvalidArgument.

Inductive completion (A : Type) : Type :=
| Normal (a : A)
| Throw (e : js_error).
Arguments Normal {A} a.
Arguments Throw {A} e.

(** [Array.prototype.reduce] without an initial value. *)
Definition reduce (f : num -> num -> num) (l : list num) : completion num :=
  match l with
  | [] => Throw TypeError
  | x :: rest => Normal (fold_left f rest x)
  end.

(** lodash [findIndex]: the first index satisfying [p], or [-1]. *)
Fixpoint findIndex_from (p : num -> bool) (l : list num) (i : Z) : Z :=
  match l with
  | [] => (-1)%Z
  | x :: rest => if p x then i else findIndex_from p rest (i + 1)%Z
  end.

Definition findIndex (l : list num) (p : num -> bool) : Z := findIndex_from p l 0%Z.

Definition zoom_step (calculatedResolution : num) (prev curr : num) : num :=
  if num_lt (num_abs (num_sub curr calculatedResolution))
            (num_abs (num_sub prev calculatedResolution))
  then curr else prev.

Definition zoom_eps : num := Fin (1 # 10000000000).

Definition getZoomForScale (scale : num) (resolutions : list num)
  (units : string) : completion Z :=
  if isNaN scale then Normal 0%Z
  else if num_lt scale (Fin 0) then Normal 0%Z
  else
    let calculatedResolution := getResolutionForScale scale units in
    match reduce (zoom_step calculatedResolution) resolutions with
    | Throw e => Throw e
    | Normal closestVal =>
        Normal (findIndex resolutions
                  (fun o => num_le (num_abs (num_sub o closestVal)) zoom_eps))
    end.

(* ------------------------------------------------------------------ *)
(** ** Layers, views and maps *)

(** The layer tree: a leaf layer or an [ol.layer.Group]; the natural number
    stands for the object identity. *)
Inductive layer_node : Type :=
| Leaf (id : nat)
| Group (id : nat) (children : list layer_node).

Definition node_id (n : layer_node) : nat :=
  match n with Leaf i => i | Group i _ => i end.

(** [n instanceof OlLayerGroup] *)
Definition is_group (n : layer_node) : bool :=
  match n with Group _ _ => true | Leaf _ => false end.

Record olview := mkView { resolution : option num }.

Record olmap := mkMap {
  map_group_id : nat;
  map_layers : list layer_node;
  map_view : option olview
}.

(** [map.getLayerGroup()] *)
Definition getLayerGroup (m : olmap) : layer_node :=
  Group (map_group_id m) (map_layers m).

(** The properties of a layer read by [layerInResolutionRange] and
    [getLegendGraphicUrl]. *)
Inductive source : Type :=
| TileWMS (urls : option (list string)) (params : list (string * string))
| ImageWMS (url : option string) (params : list (string * string))
| OtherSource.

Record olayer := mkLayer {
  minResolution : num;   (** [getMinResolution()], [0] when unset *)
  maxResolution : num;   (** [getMaxResolution()], [Infinity] when unset *)
  layer_source : option source
}.

Definition layerInResolutionRange (layer : option olayer) (map : option olmap)
  : bool :=
  let mapView := match map with Some m => map_view m | None => None end in
  let currentRes := match mapView with Some v => resolution v | None => None end in
  match layer, mapView, currentRes with
  | Some l, Some _, Some r =>
      if negb (num_truthy r) then false
      else
        let layerMinRes := minResolution l in
        let layerMaxRes := maxResolution l in
        num_ge r layerMinRes && num_lt r layerMaxRes
  | _, _, _ => false
  end.

(** [getLayersByGroup(map, layerGroup)]: the children of a group are
    visited in order; a child group is replaced by its own flattening, any
    other child is pushed. *)
Fixpoint layers_of_group (layerGroup : layer_node) : list layer_node :=
  match layerGroup with
  | Leaf _ => []
  | Group _ layers =>
      (fix go (ls : list layer_node) : list layer_node :=
         match ls with
         | [] => []
         | layer :: rest =>
             (if is_group layer then layers_of_group layer else [layer])
               ++ go rest
         end) layers
  end.

(** [layerGroup.getLayers()] throws on a layer that is not a group. *)
Definition getLayersByGroup (map : olmap) (layerGroup : layer_node)
  : completion (list layer_node) :=
  if is_group layerGroup then Normal (layers_of_group layerGroup)
  else Throw TypeError.

(** [layers.indexOf(layer)], by object identity. *)
Fixpoint indexOf (layers : list layer_node) (layer : layer_node) : Z :=
  match layers with
  | [] => (-1)%Z
  | l :: rest =>
      if Nat.eqb (node_id l) (node_id layer) then 0%Z
      else let i := indexOf rest layer in
           if (i <? 0)%Z then (-1)%Z else (i + 1)%Z
  end.

(** The object returned by [getLayerPositionInfo]; [None] is an absent key. *)
Record info := mkInfo {
  position : option Z;
  groupLayer : option layer_node
}.

Definition empty_info : info := mkInfo None None.

Definition has_groupLayer (i : info) : bool :=
  match groupLayer i with Some _ => true | None => false end.

(** The recursive part of [getLayerPositionInfo], called on groups only
    (the [Leaf] case is never reached). *)
Fixpoint positionInfo (layer : layer_node) (groupLayer : layer_node) : info :=
  match groupLayer with
  | Leaf _ => empty_info
  | Group _ layers =>
      if (indexOf layers layer <? 0)%Z then
        (fix go (ls : list layer_node) (inf : info) : info :=
           match ls with
           | [] => inf
           | childLayer :: rest =>
               go rest (if is_group childLayer && negb (has_groupLayer inf)
                        then positionInfo layer childLayer else inf)
           end) layers empty_info
      else mkInfo (Some (indexOf layers layer)) (Some groupLayer)
  end.

Inductive group_or_map : Type :=
| GroupArg (g : layer_node)
| MapArg (m : olmap).

Definition getLayerPositionInfo (layer : layer_node) (groupLayerOrMap : group_or_map)
  : completion info :=
  match groupLayerOrMap with
  | GroupArg g =>
      if is_group g then Normal (positionInfo layer g) else Throw TypeError
  | MapArg m => Normal (positionInfo layer (getLayerGroup m))
  end.

(* ------------------------------------------------------------------ *)
(** ** Legend URLs *)

(** A plain object as the list of its properties in insertion order; the
    value [None] is [undefined]. *)
Definition obj := list (string * option string).

Fixpoint obj_get (o : obj) (k : string) : option (option string) :=
  match o with
  | [] => None
  | (k', v) :: rest => if String.eqb k k' then Some v else obj_get rest k
  end.

(** Property assignment: an existing key keeps its place. *)
Fixpoint obj_set (o : obj) (k : string) (v : option string) : obj :=
  match o with
  | [] => [(k, v)]
  | (k', v') :: rest =>
      if String.eqb k k' then (k', v) :: rest else (k', v') :: obj_set rest k v
  end.

(** [Object.assign(target, src)]; an absent [src] is the empty object. *)
Definition Object_assign (target src : obj) : obj :=
  fold_left (fun o kv => obj_set o (fst kv) (snd kv)) src target.

(** [/\?/.test(s)] *)
Fixpoint has_question_mark (s : string) : bool :=
  match s with
  | EmptyString => false
  | String c rest => Ascii.eqb c "?"%char || has_question_mark rest
  end.

(** A possibly [undefined] string inside a template literal. *)
Definition url_text (o : option string) : string :=
  match o with Some s => s | None => "undefined"%string end.

Definition getParams (s : source) : list (string * string) :=
  match s with TileWMS _ p | ImageWMS _ p => p | OtherSource => [] end.

Fixpoint param_get (p : list (string * string)) (k : string) : option string :=
  match p with
  | [] => None
  | (k', v) :: rest => if String.eqb k k' then Some v else param_get rest k
  end.

Section Legend.
Local Open Scope string_scope.

(** [UrlUtil.objectToRequestString] of @terrestris/base-util. *)
Variable objectToRequestString : obj -> string.

Definition getLegendGraphicUrl (layer : option olayer) (extraParams : obj)
  : option string :=
  match layer with
  | None => None
  | Some l =>
      match layer_source l with
      | None => None
      | Some source =>
          let url :=
            match source with
            | TileWMS (Some urls) _ => nth_error urls 0
            | TileWMS None _ => Some ""
            | ImageWMS u _ => u
            | OtherSource => None
            end in
          match source with
          | TileWMS _ _ | ImageWMS _ _ =>
              let params : obj :=
                [("LAYER", param_get (getParams source) "LAYERS");
                 ("VERSION", Some "1.3.0");
                 ("SERVICE", Some "WMS");
                 ("REQUEST", Some "getLegendGraphic");
                 ("FORMAT", Some "image/png")] in
              let queryString :=
                objectToRequestString (Object_assign params extraParams) in
              Some (if has_question_mark (url_text url)
                    then url_text url ++ "&" ++ queryString
                    else url_text url ++ "?" ++ queryString)
          | OtherSource => None
          end
      end
  end.

End Legend.

(* ------------------------------------------------------------------ *)
(** ** Collecting the layers of a map or group *)

(** The default [filter] of [getAllLayers]: [() => true]. *)
Definition default_filter : layer_node -> bool := fun _ => true.

(** [getAllLayers] below a group: for each child, the layers collected
    from a child group by the recursive call (made with the default
    filter) that pass [filter], then the child itself if it passes. *)
Fixpoint allLayers_of (collection : layer_node) (filter : layer_node -> bool)
  : list layer_node :=
  match collection with
  | Leaf _ => []
  | Group _ layers =>
      (fix go (ls : list layer_node) : list layer_node :=
         match ls with
         | [] => []
         | layer :: rest =>
             ((if is_group layer
               then List.filter filter (allLayers_of layer default_filter)
               else [])
              ++ (if filter layer then [layer] else []))
             ++ go rest
         end) layers
  end.

(** [getAllLayers(collection, filter)]; [None] is a value that is neither
    a map nor a layer, a [GroupArg] holding a leaf is a layer that is not
    a group: both give [[]]. *)
Definition getAllLayers (collection : option group_or_map)
  (filter : layer_node -> bool) : list layer_node :=
  match collection with
  | Some (MapArg m) => allLayers_of (getLayerGroup m) filter
  | Some (GroupArg g) => if is_group g then allLayers_of g filter else []
  | None => []
  end.

(** The strict equality [===] on values that are a string or [undefined]. *)
Definition strict_eq (a b : option string) : bool :=
  match a, b with
  | Some x, Some y => String.eqb x y
  | None, None => true
  | _, _ => false
  end.

(** [n.toString()] on a non-negative integer: its decimal numeral. *)
Fixpoint uint_to_string (d : Decimal.uint) : string :=
  match d with
  | Decimal.Nil => EmptyString
  | Decimal.D0 r => String "0" (uint_to_string r)
  | Decimal.D1 r => String "1" (uint_to_string r)
  | Decimal.D2 r => String "2" (uint_to_string r)
  | Decimal.D3 r => String "3" (uint_to_string r)
  | Decimal.D4 r => String "4" (uint_to_string r)
  | Decimal.D5 r => String "5" (uint_to_string r)
  | Decimal.D6 r => String "6" (uint_to_string r)
  | Decimal.D7 r => String "7" (uint_to_string r)
  | Decimal.D8 r => String "8" (uint_to_string r)
  | Decimal.D9 r => String "9" (uint_to_string r)
  end%char.

Definition nat_toString (n : nat) : string := uint_to_string (Nat.to_uint n).

(** A source object as [getLayerByNameParam] reads it: the test is duck
    typed, so all that matters is whether the source has a [getParams]
    method and, if so, the object it returns. [Some ps] is a source with
    [getParams] (in ol 5.2 the WMS, ArcGIS REST and MapGuide sources),
    [None] one without it. *)
Record source_obj := mkSourceObj {
  source_getParams : option (list (string * string))
}.

(** What the lookups read from a layer object: its properties, for
    [get(key)], and the result of [getSource()] ([None] is [null]), which
    only a layer that is not a group has. *)
Record layer_state := mkLayerState {
  layer_props : obj;
  layer_src : option source_obj
}.

Section LayerLookup.
Local Open Scope string_scope.

(** The layer objects, by identity; the [ol_uid] of a layer is its
    identity. *)
Variable state_of : nat -> layer_state.

(** [layer.get(key)]; an absent property is [undefined]. *)
Definition layer_get (layer : layer_node) (key : string) : option string :=
  match obj_get (layer_props (state_of (node_id layer))) key with
  | Some v => v
  | None => None
  end.

Definition getLayerByOlUid (map : option group_or_map) (ol_uid : string)
  : option layer_node :=
  let layers := getAllLayers map default_filter in
  find (fun l => String.eqb ol_uid (nat_toString (node_id l))) layers.

(** [layers.filter(...)[0]]: [undefined] on an empty result. *)
Definition getLayerByName (map : option group_or_map) (name : string)
  : option layer_node :=
  let layers := getAllLayers map default_filter in
  nth_error (filter (fun layer => strict_eq (layer_get layer "name") (Some name))
                    layers) 0.

(** The test of the loop of [getLayerByNameParam]:
    [layer.getSource && layer.getSource().getParams &&
     layer.getSource().getParams()['LAYERS'] === name].
    A group has no [getSource]; on a layer whose source is [null],
    [null.getParams] throws. *)
Definition name_param_test (layer : layer_node) (name : string)
  : completion bool :=
  if is_group layer then Normal false
  else match layer_src (state_of (node_id layer)) with
       | None => Throw TypeError
       | Some s =>
           Normal (match source_getParams s with
                   | Some ps => strict_eq (param_get ps "LAYERS") (Some name)
                   | None => false
                   end)
       end.

(** The [for ... of] loop with its [break]. *)
Fixpoint find_name_param (layers : list layer_node) (name : string)
  : completion (option layer_node) :=
  match layers with
  | [] => Normal None
  | layer :: rest =>
      match name_param_test layer name with
      | Throw e => Throw e
      | Normal true => Normal (Some layer)
      | Normal false => find_name_param rest name
      end
  end.

Definition getLayerByNameParam (map : option group_or_map) (name : string)
  : completion (option layer_node) :=
  let layers := getAllLayers map default_filter in
  find_name_param layers name.

Section ByFeature.
Variable feature : Type.
(** [FeatureUtil.getFeatureTypeName] *)
Variable getFeatureTypeName : feature -> string.

(** The [for ... of] loop over the namespaces with its [break]. *)
Fixpoint find_by_namespaces (map : option group_or_map) (featureTypeName : string)
  (namespaces : list string) : completion (option layer_node) :=
  match namespaces with
  | [] => Normal None
  | namespace :: rest =>
      let qualifiedFeatureTypeName := namespace ++ ":" ++ featureTypeName in
      match getLayerByNameParam map qualifiedFeatureTypeName with
      | Throw e => Throw e
      | Normal (Some layer) => Normal (Some layer)
      | Normal None => find_by_namespaces map featureTypeName rest
      end
  end.

Definition getLayerByFeature (map : option group_or_map) (f : feature)
  (namespaces : list string) : completion (option layer_node) :=
  let featureTypeName := getFeatureTypeName f in
  find_by_namespaces map featureTypeName namespaces.

End ByFeature.

(** [getLayersByProperty(map, key, value)] for a value that is a string or
    [undefined]; [undefined] is returned for an absent map or an empty key. *)
Definition getLayersByProperty (map : option group_or_map) (key : string)
  (value : option string) : option (list layer_node) :=
  match map with
  | None => None
  | Some _ =>
      if String.eqb key "" then None
      else
        let mapLayers := getAllLayers map default_filter in
        Some (filter (fun l => strict_eq (layer_get l key) value) mapLayers)
  end.

End LayerLookup.

(* ------------------------------------------------------------------ *)
(** ** AnimateUtil.moveFeature *)

(** The operator [x + y] on numbers. *)
Definition num_add (x y : num) : num :=
  match x, y with
  | Fin a, Fin b => Fin (a + b)
  | NaN, _ | _, NaN => NaN
  | Inf s, Inf t => if Bool.eqb s t then Inf s else NaN
  | Inf s, Fin _ => Inf s
  | Fin _, Inf t => Inf t
  end.

(** [ToNumber] of an array of numbers, as in [pixel * resolution]: the
    array goes through its string form, so [[]] is [0], [[x]] is [x] and a
    longer array is [NaN]. *)
Definition array_to_number (a : list num) : num :=
  match a with
  | [] => Fin 0
  | [x] => x
  | _ => NaN
  end.

Inductive geom_type : Type :=
| PointKind         (** [ol.geom.Point] *)
| LineStringKind    (** [ol.geom.LineString] *)
| OtherKind.

Record geometry := mkGeom {
  geom_kind : geom_type;
  coordinates : list (num * num)
}.

(** [geometry.translate(deltaX, deltaY)] *)
Definition translate (deltaX deltaY : num) (g : geometry) : geometry :=
  mkGeom (geom_kind g)
         (List.map (fun c => (num_add (fst c) deltaX, num_add (snd c) deltaY))
                   (coordinates g)).

(** The calls made on the vector context of an event. *)
Inductive draw_call : Type :=
| SetFillStrokeStyle
| SetImageStyle
| DrawPointGeometry
| DrawLineStringGeometry
| DrawPolygonGeometry
| SetStyle
| DrawGeometry.

(** A [postcompose] event: [frameState.time] and whether the vector
    context has [setFillStrokeStyle], [setImageStyle] and
    [drawPointGeometry]. *)
Record compose_event := mkEvent {
  frame_time : num;
  immediate_api : bool
}.

(** The state of one call of [moveFeature]: the geometry of the feature,
    [actualFrames], whether [animate] is still registered for
    [postcompose], whether the promise is resolved, the calls made on the
    vector contexts so far, and the errors thrown out of [animate]. *)
Record anim_state := mkAnim {
  geom : geometry;
  actualFrames : num;
  listening : bool;
  resolved : bool;
  drawn : list draw_call;
  thrown : list js_error
}.

(** [duration / 1000 * 60] *)
Definition expected_frames (duration : num) : num :=
  num_mul (num_div duration (Fin 1000)) (Fin 60).

(** [deltaX] and [deltaY]: [totalDisplacement / expectedFrames] with
    [totalDisplacement = pixel * resolution]; an [undefined] resolution is
    [NaN]. *)
Definition move_delta (pixel : list num) (resolution : option num) (duration : num)
  : num :=
  let totalDisplacement := num_mul (array_to_number pixel) (to_number resolution) in
  num_div totalDisplacement (expected_frames duration).

(** [OlObservable.unByKey(listenerKey)]. [OlObservable] is the default
    export of [ol/observable], which in ol 5.2.0 (the version in
    [package.json]) is the class [Observable]; [unByKey] is a named export
    of that module and not a static method of the class, so
    [OlObservable.unByKey] is [undefined] and calling it throws a
    TypeError. *)
Definition OlObservable_unByKey : completion unit := Throw TypeError.

(** The listener [animate]; [style] tells whether a style was given. The
    geometry is translated and drawn first. When the animation is over,
    [unByKey] is called: if it returned, the listener would be removed,
    the promise resolved and the counter incremented; as it throws, the
    rest of [animate] ([resolve], [frameState.animate = true] and
    [actualFrames++]) is skipped and the error leaves [animate]. *)
Definition animate (start duration expectedFrames deltaX deltaY : num)
  (style : bool) (event : compose_event) (s : anim_state) : anim_state :=
  let elapsed := num_sub (frame_time event) start in
  let geometry := translate deltaX deltaY (geom s) in
  let calls :=
    if immediate_api event then
      (if style then [SetFillStrokeStyle; SetImageStyle] else []) ++
      [match geom_kind geometry with
       | PointKind => DrawPointGeometry
       | LineStringKind => DrawLineStringGeometry
       | OtherKind => DrawPolygonGeometry
       end]
    else (if style then [SetStyle] else []) ++ [DrawGeometry] in
  if num_lt duration elapsed || num_ge (actualFrames s) expectedFrames then
    match OlObservable_unByKey with
    | Normal _ =>
        mkAnim geometry (num_add (actualFrames s) (Fin 1)) false true
               (drawn s ++ calls) (thrown s)
    | Throw e =>
        mkAnim geometry (actualFrames s) (listening s) (resolved s)
               (drawn s ++ calls) (thrown s ++ [e])
    end
  else mkAnim geometry (num_add (actualFrames s) (Fin 1)) (listening s) (resolved s)
              (drawn s ++ calls) (thrown s).

(** A [postcompose] event reaches [animate] while it is registered; an
    error thrown by a listener does not unregister it. *)
Definition dispatch (start duration expectedFrames deltaX deltaY : num)
  (style : bool) (s : anim_state) (event : compose_event) : anim_state :=
  if listening s then animate start duration expectedFrames deltaX deltaY style event s
  else s.

(** [moveFeature(map, featureToMove, duration, pixel, style)], run against
    the [postcompose] events the map emits from the time [start] on;
    [resolution] is [map.getView().getResolution()]. *)
Definition moveFeature (resolution : option num) (geometry0 : geometry)
  (duration : num) (pixel : list num) (style : bool) (start : num)
  (events : list compose_event) : anim_state :=
  let expectedFrames := expected_frames duration in
  let deltaX := move_delta pixel resolution duration in
  let deltaY := move_delta pixel resolution duration in
  fold_left (dispatch start duration expectedFrames deltaX deltaY style) events
            (mkAnim geometry0 (Fin 0) true false [] []).

(* ================================================================== *)
(** * Notions of the specification *)

(** [r] is a multiple of [m] nearest to [q]. *)
Definition nearest_multiple (m q r : Q) : Prop :=
  (exists z : Z, r == inject_Z z * m) /\
  (forall z : Z, Qabs (q - r) <= Qabs (q - inject_Z z * m)).

(** The rounding unit of a scale: 1 below 100, 10 in [100, 10000),
    100 in [10000, 1000000), 1000 from 1000000 on. *)
Definition scale_rounding_unit (q : Q) : Q :=
  if Qltb q 100 then 1
  else if Qltb q 10000 then 10
  else if Qltb q 1000000 then 100
  else 1000.

(** The order of the extended real line, on which NaN takes no part. *)
Inductive ext_le : num -> num -> Prop :=
| ext_le_fin (a b : Q) : a <= b -> ext_le (Fin a) (Fin b)
| ext_le_ninf (y : num) : y <> NaN -> ext_le (Inf true) y
| ext_le_pinf (x : num) : x <> NaN -> ext_le x (Inf false).

Inductive ext_lt : num -> num -> Prop :=
| ext_lt_fin (a b : Q) : a < b -> ext_lt (Fin a) (Fin b)
| ext_lt_ninf_fin (b : Q) : ext_lt (Inf true) (Fin b)
| ext_lt_fin_pinf (a : Q) : ext_lt (Fin a) (Inf false)
| ext_lt_ninf_pinf : ext_lt (Inf true) (Inf false).

(** [r] lies in the half-open interval [[lo, hi)]. *)
Definition in_half_open (r lo hi : num) : Prop := ext_le lo r /\ ext_lt r hi.

Definition view_at (res : num) : olmap := mkMap 0 [] (Some (mkView (Some res))).

(** The nearest-value step on finite values. *)
Definition nearer (c : Q) (prev curr : Q) : Q :=
  if Qltb (Qabs (curr - c)) (Qabs (prev - c)) then curr else prev.

(** Depth-first pre-order list of all nodes of a tree, groups included. *)
Fixpoint preorder (n : layer_node) : list layer_node :=
  match n with
  | Leaf _ => [n]
  | Group _ cs =>
      n :: (fix go (ls : list layer_node) : list layer_node :=
              match ls with [] => [] | c :: r => preorder c ++ go r end) cs
  end.

Fixpoint count_leaves (n : layer_node) : nat :=
  match n with
  | Leaf _ => 1
  | Group _ cs =>
      (fix go (ls : list layer_node) : nat :=
         match ls with [] => 0 | c :: r => count_leaves c + go r end) cs
  end%nat.

Definition is_leaf (n : layer_node) : bool := negb (is_group n).

(** What one child contributes to the flattening of its group. *)
Definition leaf_part (n : layer_node) : list layer_node :=
  if is_group n then layers_of_group n else [n].

Section LayerNodeInd.
Variable P : layer_node -> Prop.
Hypothesis HLeaf : forall i, P (Leaf i).
Hypothesis HGroup : forall i cs, Forall P cs -> P (Group i cs).

Fixpoint layer_node_ind' (n : layer_node) : P n :=
  match n with
  | Leaf i => HLeaf i
  | Group i cs =>
      HGroup i cs
        ((fix go (ls : list layer_node) : Forall P ls :=
            match ls with
            | [] => Forall_nil P
            | c :: r => Forall_cons c (layer_node_ind' c) (go r)
            end) cs)
  end.
End LayerNodeInd.

(** All nodes strictly below [n]. *)
Fixpoint descendants (n : layer_node) : list layer_node :=
  match n with
  | Leaf _ => []
  | Group _ cs =>
      (fix go (ls : list layer_node) : list layer_node :=
         match ls with [] => [] | c :: r => (c :: descendants c) ++ go r end) cs
  end.

Definition children (n : layer_node) : list layer_node :=
  match n with Leaf _ => [] | Group _ cs => cs end.

(** [layer] occurs somewhere below [root]. *)
Definition in_subtree (layer root : layer_node) : Prop :=
  exists x, In x (descendants root) /\ node_id x = node_id layer.

Definition in_subtreeb (layer root : layer_node) : bool :=
  existsb (fun x => Nat.eqb (node_id x) (node_id layer)) (descendants root).

(** The group [getLayerPositionInfo] starts from. *)
Definition root_group (a : group_or_map) : option layer_node :=
  match a with
  | GroupArg g => if is_group g then Some g else None
  | MapArg m => Some (getLayerGroup m)
  end.

(** The [forEach] over the children of a group in [getLayerPositionInfo]. *)
Fixpoint positionInfo_children (layer : layer_node) (ls : list layer_node) (inf : info)
  : info :=
  match ls with
  | [] => inf
  | c :: r =>
      positionInfo_children layer r
        (if is_group c && negb (has_groupLayer inf) then positionInfo layer c else inf)
  end.

(** [g], a group of the tree of [root], owns [layer] at index [n], and [n]
    is the first index of [layer] among the children of [g]. *)
Definition owner_at (layer root g : layer_node) (n : nat) : Prop :=
  (g = root \/ In g (descendants root)) /\ is_group g = true /\
  (exists x, nth_error (children g) n = Some x /\ node_id x = node_id layer) /\
  (forall j y, (j < n)%nat -> nth_error (children g) j = Some y ->
               node_id y <> node_id layer).

(** The base URL of a WMS source: the first URL of a tiled source ([""]
    when it has no URLs), the URL of a single-image source. *)
Definition legend_base_url (s : source) : option string :=
  match s with
  | TileWMS (Some urls) _ => nth_error urls 0
  | TileWMS None _ => Some ""%string
  | ImageWMS u _ => u
  | OtherSource => None
  end.

Definition is_wms_source (s : source) : bool :=
  match s with TileWMS _ _ | ImageWMS _ _ => true | OtherSource => false end.

(** An encoder of request parameters ([key=value] pairs joined by [&],
    without percent-encoding), for concrete examples. *)
Fixpoint join_params (o : obj) : string :=
  match o with
  | [] => ""
  | [(k, v)] => k ++ "=" ++ url_text v
  | (k, v) :: rest => k ++ "=" ++ url_text v ++ "&" ++ join_params rest
  end%string.

(** Depth-first post-order list of the nodes strictly below [n]: for each
    child in turn, the nodes below it, then the child. *)
Fixpoint postorder_below (n : layer_node) : list layer_node :=
  match n with
  | Leaf _ => []
  | Group _ cs =>
      (fix go (ls : list layer_node) : list layer_node :=
         match ls with
         | [] => []
         | c :: r => (postorder_below c ++ [c]) ++ go r
         end) cs
  end.

(** [x] is a layer, not a group, whose source has a [getParams] method
    whose result has the [LAYERS] parameter [name]. *)
Definition name_param_match (state_of : nat -> layer_state) (name : string)
  (x : layer_node) : Prop :=
  is_group x = false /\
  exists s ps, layer_src (state_of (node_id x)) = Some s /\
               source_getParams s = Some ps /\
               param_get ps "LAYERS"%string = Some name.

(** The frame of [moveFeature] of a duration [q] from which on the frame
    counter has reached [expectedFrames]: the least natural number not
    below [q / 1000 * 60]. *)
Definition last_frame (q : Q) : nat := Z.to_nat (Qceiling (q / 1000 * 60)).

(** [c'] is the finite coordinate [c] moved by [d] along both axes. *)
Definition moved_by (d : Q) (c c' : num * num) : Prop :=
  exists x y x' y', c = (Fin x, Fin y) /\ c' = (Fin x', Fin y') /\
                    x' == x + d /\ y' == y + d.

(** Example layer objects: a layer named [water] and a layer named
    [roads], whose sources have [getParams] (as a WMS source has); a group
    named [base]; a layer named [labels] whose source is [null]; a layer
    named [tiles] whose source has no [getParams] (as an XYZ source). *)
Definition example_state (id : nat) : layer_state :=
  match id with
  | 1 => mkLayerState [("name", Some "water")]
           (Some (mkSourceObj (Some [("LAYERS", "topp:water")])))
  | 2 => mkLayerState [("name", Some "base")] None
  | 3 => mkLayerState [("name", Some "roads")]
           (Some (mkSourceObj (Some [("LAYERS", "topp:roads")])))
  | 4 => mkLayerState [("name", Some "labels")] None
  | 5 => mkLayerState [("name", Some "tiles")] (Some (mkSourceObj None))
  | _ => mkLayerState [] None
  end%nat%string.

(** A map holding [water] and the group [base] of [roads] and [labels]. *)
Definition example_map : olmap := mkMap 0 [Leaf 1; Group 2 [Leaf 3; Leaf 4]] None.

(** A map without [labels], so every layer has a source, and with [tiles]
    next to [base]. *)
Definition example_map_sourced : olmap := mkMap 0 [Leaf 1; Group 2 [Leaf 3]; Leaf 5] None.

(** A frame of [moveFeature] at time [t] on a vector context with the
    immediate-rendering methods. *)
Definition frame_at (t : Q) : compose_event := mkEvent (Fin t) true.

(* ================================================================== *)
(** * Properties *)

(** ** Arithmetic facts of the number model *)

Lemma Qeq_bool_pos (a : Q) : 0 < a -> Qeq_bool a 0 = false.
Proof.
  intro H. destruct (Qeq_bool a 0) eqn:E; [|reflexivity].
  apply Qeq_bool_iff in E. lra.
Qed.

Lemma Qneg_pos (a : Q) : 0 < a -> Qneg a = false.
Proof.
  intro H. unfold Qneg, Qltb. rewrite (proj2 (Qle_bool_iff 0 a)); [reflexivity|lra].
Qed.

Lemma Qltb_iff (a b : Q) : Qltb a b = true <-> a < b.
Proof.
  unfold Qltb. split.
  - intro H. apply negb_true_iff in H.
    destruct (Qlt_le_dec a b) as [L|L]; [exact L|].
    apply Qle_bool_iff in L. congruence.
  - intro H. apply negb_true_iff. destruct (Qle_bool b a) eqn:E; [|reflexivity].
    apply Qle_bool_iff in E. lra.
Qed.

Lemma num_mul_pos (x : num) (k : Q) : 0 < k ->
  num_mul x (Fin k) = match x with
                      | Fin a => Fin (a * k)
                      | Inf s => Inf s
                      | NaN => NaN
                      end.
Proof.
  intro H. destruct x as [a|s|]; simpl; try reflexivity.
  rewrite Qeq_bool_pos, Qneg_pos by exact H. now rewrite xorb_false_r.
Qed.

Lemma num_div_pos (x : num) (k : Q) : 0 < k ->
  num_div x (Fin k) = match x with
                      | Fin a => Fin (a / k)
                      | Inf s => Inf s
                      | NaN => NaN
                      end.
Proof.
  intro H. destruct x as [a|s|]; simpl; try reflexivity.
  - now rewrite Qeq_bool_pos by exact H.
  - rewrite Qneg_pos by exact H. now rewrite xorb_false_r.
Qed.

Lemma dpi_value : num_div (Fin 25.4) (Fin 0.28) = Fin (25.4 / 0.28).
Proof. reflexivity. Qed.

Lemma METERS_PER_UNIT_pos (units : string) :
  recognized_unit units = true ->
  exists m, METERS_PER_UNIT units = Some (Fin m) /\ 0 < m.
Proof.
  unfold recognized_unit, METERS_PER_UNIT.
  destruct (String.eqb units "degrees"); [intros _; eexists; split; [reflexivity|lra]|].
  destruct (String.eqb units "ft"); [intros _; eexists; split; [reflexivity|lra]|].
  destruct (String.eqb units "m"); [intros _; eexists; split; [reflexivity|lra]|].
  destruct (String.eqb units "us-ft"); [intros _; eexists; split; [reflexivity|]|].
  - unfold Qlt; simpl; lia.
  - discriminate.
Qed.

(** The conversion factor [mpu * inchesPerMeter * dpi] of a unit. *)
Lemma conversion_factor (units : string) (m : Q) :
  METERS_PER_UNIT units = Some (Fin m) -> 0 < m ->
  num_mul (num_mul (to_number (METERS_PER_UNIT units)) (Fin 39.37))
          (num_div (Fin 25.4) (Fin 0.28))
  = Fin (m * 39.37 * (25.4 / 0.28)).
Proof.
  intros E H. rewrite E, dpi_value. reflexivity.
Qed.

(** ** C3: scale and resolution conversions are inverse *)

(** Claim C3: for every recognized unit [u] (one with an entry in
    [METERS_PER_UNIT]) and every resolution [r],
    [getResolutionForScale (getScaleForResolution r u) u] is [r] again:
    [getScaleForResolution] multiplies by [mpu * 39.37 * (25.4 / 0.28)],
    [getResolutionForScale] divides by the same factor.  In the exact model
    the round trip is the identity (finite values, both infinities and NaN). *)
Theorem resolution_scale_roundtrip (u : string) (r : num) :
  recognized_unit u = true ->
  num_same (getResolutionForScale (getScaleForResolution r u) u) r.
Proof.
  intro Hu. destruct (METERS_PER_UNIT_pos u Hu) as [m [E Hm]].
  unfold getResolutionForScale, getScaleForResolution, parseFloat.
  rewrite (conversion_factor u m E Hm). rewrite E, dpi_value. simpl to_number.
  assert (Hc : 0 < 39.37) by lra. assert (Hd : 0 < 25.4 / 0.28) by (vm_compute; reflexivity).
  assert (Hk : 0 < m * 39.37 * (25.4 / 0.28)).
  { apply Qmult_lt_0_compat; [apply Qmult_lt_0_compat|]; assumption. }
  rewrite !num_mul_pos by assumption. rewrite num_div_pos by assumption.
  destruct r as [a|s|]; simpl; try reflexivity; try exact I.
  field. repeat split; lra.
Qed.

Lemma resolution_scale_roundtrip_witness :
  recognized_unit "degrees" = true /\
  num_same (getResolutionForScale (getScaleForResolution (Fin 50) "degrees") "degrees") (Fin 50).
Proof.
  split; [reflexivity|]. apply resolution_scale_roundtrip. reflexivity.
Defined.

(** ** C7: tiered rounding of scales *)

Lemma Qltb_false (a b : Q) : b <= a -> Qltb a b = false.
Proof.
  intro H. destruct (Qltb a b) eqn:E; [|reflexivity]. apply Qltb_iff in E. lra.
Qed.

Lemma Qle_bool_false (a b : Q) : b < a -> Qle_bool a b = false.
Proof.
  intro H. destruct (Qle_bool a b) eqn:E; [|reflexivity]. apply Qle_bool_iff in E. lra.
Qed.

Lemma Qle_bool_true (a b : Q) : a <= b -> Qle_bool a b = true.
Proof. apply Qle_bool_iff. Qed.

(** [Math.round] yields an integer nearest to its argument. *)
Lemma Math_round_nearest (x : Q) (z : Z) :
  Qabs (x - inject_Z (Qfloor (x + (1 # 2)))) <= Qabs (x - inject_Z z).
Proof.
  set (z0 := Qfloor (x + (1 # 2))).
  assert (L : inject_Z z0 <= x + (1 # 2)) by apply Qfloor_le.
  assert (U : x + (1 # 2) < inject_Z (z0 + 1)) by apply Qlt_floor.
  rewrite inject_Z_plus in U. change (inject_Z 1) with 1 in U.
  assert (A : Qabs (x - inject_Z z0) <= 1 # 2) by (apply Qabs_Qle_condition; lra).
  assert (Hz : (z <= z0 - 1 \/ z = z0 \/ z0 + 1 <= z)%Z) by lia.
  destruct Hz as [Hz|[Hz|Hz]].
  - rewrite Zle_Qle in Hz. unfold Z.sub in Hz. rewrite inject_Z_plus in Hz.
    change (inject_Z (- (1))) with (-1) in Hz.
    assert (B : 1 # 2 <= Qabs (x - inject_Z z)) by (apply Qabs_ge; lra). lra.
  - subst z. apply Qle_refl.
  - rewrite Zle_Qle in Hz. rewrite inject_Z_plus in Hz. change (inject_Z 1) with 1 in Hz.
    assert (B : 1 # 2 <= Qabs (x - inject_Z z)).
    { rewrite <- Qabs_opp. apply Qabs_ge. lra. }
    lra.
Qed.

(** [Math.round(q / m) * m] is a multiple of [m] nearest to [q]. *)
Lemma Math_round_nearest_multiple (q m : Q) (z : Z) : 0 < m ->
  Qabs (q - inject_Z (Qfloor (q / m + (1 # 2))) * m) <= Qabs (q - inject_Z z * m).
Proof.
  intro Hm.
  assert (E : forall w : Q, q - w * m == (q / m - w) * m) by (intro w; field; lra).
  rewrite !E, !Qabs_Qmult, (Qabs_pos m) by lra.
  apply Qmult_le_r; [exact Hm|]. apply Math_round_nearest.
Qed.

Lemma roundScale_tier (q m : Q) : 0 < m ->
  nearest_multiple m q (inject_Z (Qfloor (q / m + (1 # 2))) * m).
Proof.
  intro Hm. split.
  - eexists. reflexivity.
  - intro z. now apply Math_round_nearest_multiple.
Qed.

(** Claim C7: for every non-negative scale, [roundScale] rounds to the
    nearest integer below 100, to the nearest multiple of 10 in [100, 10000),
    of 100 in [10000, 1000000) and of 1000 from 1000000 on; hence
    [roundScale 99 = 99], [roundScale 100 = 100], [roundScale 9999 = 10000]
    (nearest 10), [roundScale 10000 = 10000] and [roundScale 999999 = 1000000]
    (nearest 100), [roundScale 1000000 = 1000000] (nearest 1000). *)
Theorem roundScale_tiered (q : Q) :
  0 <= q ->
  (exists r, roundScale (Fin q) = Some (Fin r) /\
             nearest_multiple (scale_rounding_unit q) q r) /\
  roundScale (Fin 99) = Some (Fin 99) /\
  roundScale (Fin 100) = Some (Fin 100) /\
  roundScale (Fin 9999) = Some (Fin 10000) /\
  roundScale (Fin 10000) = Some (Fin 10000) /\
  roundScale (Fin 999999) = Some (Fin 1000000) /\
  roundScale (Fin 1000000) = Some (Fin 1000000).
Proof.
  intro Hq. split; [|repeat split; reflexivity].
  unfold roundScale, scale_rounding_unit, num_ge, num_lt, num_le.
  destruct (Qlt_le_dec q 100) as [H1|H1].
  - rewrite (proj2 (Qltb_iff q 100) H1), (Qle_bool_false 100 q H1).
    assert (H2 : q < 10000) by lra. assert (H3 : q < 1000000) by lra.
    rewrite (Qle_bool_false 10000 q H2), (Qle_bool_false 1000000 q H3). simpl.
    eexists. split; [reflexivity|]. split.
    + exists (Qfloor (q + (1 # 2))). rewrite Qmult_1_r. reflexivity.
    + intro z. rewrite Qmult_1_r. apply Math_round_nearest.
  - rewrite (Qltb_false q 100 H1), (Qle_bool_true 100 q H1).
    destruct (Qlt_le_dec q 10000) as [H2|H2].
    + rewrite (proj2 (Qltb_iff q 10000) H2), (Qle_bool_false 10000 q H2).
      assert (H3 : q < 1000000) by lra.
      rewrite (Qle_bool_false 1000000 q H3). cbn [andb negb].
      rewrite num_div_pos by lra. cbn [Math_round]. rewrite num_mul_pos by lra.
      eexists. split; [reflexivity|]. apply roundScale_tier. lra.
    + rewrite (Qltb_false q 10000 H2), (Qle_bool_true 10000 q H2).
      destruct (Qlt_le_dec q 1000000) as [H3|H3].
      * rewrite (proj2 (Qltb_iff q 1000000) H3), (Qle_bool_false 1000000 q H3). cbn [andb negb].
        rewrite num_div_pos by lra. cbn [Math_round]. rewrite num_mul_pos by lra.
        eexists. split; [reflexivity|]. apply roundScale_tier. lra.
      * rewrite (Qltb_false q 1000000 H3), (Qle_bool_true 1000000 q H3). cbn [andb negb].
        rewrite num_div_pos by lra. cbn [Math_round]. rewrite num_mul_pos by lra.
        eexists. split; [reflexivity|]. apply roundScale_tier. lra.
Qed.

Lemma roundScale_tiered_witness :
  0 <= 12345 /\ roundScale (Fin 12345) = Some (Fin 12300).
Proof.
  split; [lra|].
  destruct (roundScale_tiered 12345) as [[r [E _]] _]; [lra|].
  rewrite E. f_equal. f_equal.
  vm_compute in E. injection E as <-. reflexivity.
Defined.

(** ** C4: visibility of a layer at the current resolution *)

Lemma num_le_ext (x y : num) : num_le x y = true <-> ext_le x y.
Proof.
  split.
  - destruct x as [a|[|]|], y as [b|[|]|]; simpl; intro H; try discriminate;
      try (constructor; discriminate).
    constructor. now apply Qle_bool_iff.
  - intro H. destruct H as [a b H| y H | x H].
    + simpl. now apply Qle_bool_iff.
    + destruct y as [b|[|]|]; try reflexivity. congruence.
    + destruct x as [a|[|]|]; try reflexivity. congruence.
Qed.

Lemma num_lt_ext (x y : num) : num_lt x y = true <-> ext_lt x y.
Proof.
  split.
  - destruct x as [a|[|]|], y as [b|[|]|]; simpl; intro H; try discriminate;
      try constructor.
    now apply Qltb_iff.
  - intro H. destruct H; try reflexivity. simpl. now apply Qltb_iff.
Qed.

Lemma num_truthy_same_zero (r : num) : num_truthy r = true -> ~ num_same r (Fin 0).
Proof.
  destruct r as [a| |]; simpl; try discriminate; try (intros _ H; exact H).
  intros H E. apply negb_true_iff in H. apply Qeq_bool_iff in E. congruence.
Qed.

(** Claim C4, what the code does: [layerInResolutionRange layer map] is
    [true] exactly when the layer, the map, its view and the view's resolution [r]
    are all present, [r] is not [0], and [r] lies in
    [[minResolution, maxResolution)]; it is [false] otherwise and never
    throws (the result is a plain boolean).  With [minResolution = 10] and
    [maxResolution = 20], resolution [10] gives [true], [20] and [9.999] give
    [false]. The condition "[r] is not [0]" comes from the falsy check
    [!currentRes]; neither the docstring nor the claim has it. *)
Theorem layerInResolutionRange_spec (layer : option olayer) (map : option olmap) :
  (layerInResolutionRange layer map = true <->
   exists l m v r,
     layer = Some l /\ map = Some m /\ map_view m = Some v /\
     resolution v = Some r /\ ~ num_same r (Fin 0) /\
     in_half_open r (minResolution l) (maxResolution l)) /\
  (let l := mkLayer (Fin 10) (Fin 20) None in
   layerInResolutionRange (Some l) (Some (view_at (Fin 10))) = true /\
   layerInResolutionRange (Some l) (Some (view_at (Fin 20))) = false /\
   layerInResolutionRange (Some l) (Some (view_at (Fin 9.999))) = false).
Proof.
  split; [|repeat split; reflexivity].
  unfold layerInResolutionRange, in_half_open, num_ge. split.
  - destruct layer as [l|]; [|discriminate].
    destruct map as [m|]; [|discriminate].
    destruct (map_view m) as [v|] eqn:Ev; [|discriminate].
    destruct (resolution v) as [r|] eqn:Er; [|discriminate].
    destruct (num_truthy r) eqn:Et; [|discriminate]. simpl.
    intro H. apply andb_true_iff in H. destruct H as [H1 H2].
    exists l, m, v, r. repeat split; try assumption.
    + now apply num_truthy_same_zero.
    + now apply num_le_ext.
    + now apply num_lt_ext.
  - intros (l & m & v & r & -> & -> & Ev & Er & Hz & H1 & H2).
    rewrite Ev, Er.
    assert (Et : num_truthy r = true).
    { destruct r as [a| |]; simpl; try reflexivity.
      - apply negb_true_iff. destruct (Qeq_bool a 0) eqn:E; [|reflexivity].
        exfalso. apply Hz. simpl. now apply Qeq_bool_iff.
      - exfalso. inversion H1; congruence. }
    rewrite Et. simpl. apply andb_true_iff. split.
    + now apply num_le_ext.
    + now apply num_lt_ext.
Qed.

(** Claim C4 fails at resolution [0], against the docstring, which
    returns [false] only when there is no layer, no map, no view or no
    resolution yet: with the default bounds [minResolution = 0] and
    [maxResolution = Infinity] a view resolution of [0] is present and lies
    in [[0, Infinity)], yet the falsy check [!currentRes] treats it as
    absent and the result is [false]. *)
Lemma layerInResolutionRange_zero_resolution :
  in_half_open (Fin 0) (Fin 0) (Inf false) /\
  layerInResolutionRange (Some (mkLayer (Fin 0) (Inf false) None))
                         (Some (view_at (Fin 0))) = false.
Proof.
  split; [split; constructor; lra|reflexivity].
Qed.

(** ** The zoom resolver *)

Lemma zoom_step_fin (c p w : Q) :
  zoom_step (Fin c) (Fin p) (Fin w) = Fin (nearer c p w).
Proof.
  unfold zoom_step, nearer. simpl. destruct (Qltb _ _); reflexivity.
Qed.

Lemma zoom_fold_fin (c : Q) (l : list Q) (x : Q) :
  fold_left (zoom_step (Fin c)) (map Fin l) (Fin x) = Fin (fold_left (nearer c) l x).
Proof.
  revert x. induction l as [|y l IH]; intro x; [reflexivity|].
  simpl. rewrite zoom_step_fin. apply IH.
Qed.

(** The reduction only ever keeps one of the values it is given. *)
Lemma zoom_fold_In (c : num) (l : list num) (x : num) :
  In (fold_left (zoom_step c) l x) (x :: l).
Proof.
  revert x. induction l as [|y l IH]; intro x; [now left|].
  simpl. specialize (IH (zoom_step c x y)).
  unfold zoom_step in *. destruct (num_lt _ _).
  - destruct IH as [<-|IH]; [right; now left|right; now right].
  - destruct IH as [<-|IH]; [now left|right; now right].
Qed.

Lemma nth_error_snoc (l : list Q) (y w : Q) (j : nat) :
  nth_error (l ++ [y]) j = Some w ->
  nth_error l j = Some w \/ (j = List.length l /\ w = y).
Proof.
  intro H. destruct (Nat.lt_ge_cases j (List.length l)) as [L|L].
  - left. now rewrite nth_error_app1 in H.
  - right. rewrite nth_error_app2 in H by exact L.
    destruct (j - List.length l)%nat as [|d] eqn:E.
    + simpl in H. injection H as <-. split; [lia|reflexivity].
    + destruct d; discriminate.
Qed.

(** The reduction returns the first entry of minimal distance to [c]. *)
Lemma nearer_fold_first_min (c : Q) (l : list Q) (x : Q) :
  exists k,
    nth_error (x :: l) k = Some (fold_left (nearer c) l x) /\
    (forall j w, nth_error (x :: l) j = Some w ->
       Qabs (fold_left (nearer c) l x - c) <= Qabs (w - c)) /\
    (forall j w, (j < k)%nat -> nth_error (x :: l) j = Some w ->
       Qabs (fold_left (nearer c) l x - c) < Qabs (w - c)).
Proof.
  induction l as [|y l IH] using rev_ind.
  - exists 0%nat. simpl. split; [reflexivity|split].
    + intros [|j] w H; [injection H as <-; apply Qle_refl|destruct j; discriminate].
    + intros j w H. lia.
  - destruct IH as (k & Hk & Hall & Hfirst).
    rewrite fold_left_app. simpl fold_left.
    set (v := fold_left (nearer c) l x) in *.
    change (x :: l ++ [y]) with ((x :: l) ++ [y]).
    assert (Kl : (k < List.length (x :: l))%nat).
    { apply nth_error_Some. congruence. }
    unfold nearer. destruct (Qltb (Qabs (y - c)) (Qabs (v - c))) eqn:E.
    + apply Qltb_iff in E. exists (List.length (x :: l)). split; [|split].
      * rewrite nth_error_app2 by lia. now rewrite Nat.sub_diag.
      * intros j w H. apply nth_error_snoc in H. destruct H as [H|[_ ->]].
        -- specialize (Hall j w H). lra.
        -- apply Qle_refl.
      * intros j w Hj H. rewrite nth_error_app1 in H by exact Hj.
        specialize (Hall j w H). lra.
    + assert (E' : Qabs (v - c) <= Qabs (y - c)).
      { destruct (Qlt_le_dec (Qabs (y - c)) (Qabs (v - c))) as [L|L]; [|exact L].
        apply Qltb_iff in L. congruence. }
      exists k. split; [|split].
      * rewrite nth_error_app1 by exact Kl. exact Hk.
      * intros j w H. apply nth_error_snoc in H. destruct H as [H|[_ ->]].
        -- exact (Hall j w H).
        -- exact E'.
      * intros j w Hj H. rewrite nth_error_app1 in H by lia. exact (Hfirst j w Hj H).
Qed.

(** lodash [findIndex] finds the first satisfying entry, when there is one. *)
Lemma findIndex_from_first (p : num -> bool) (l : list num) (i : Z) :
  (exists w, In w l /\ p w = true) ->
  exists n w, findIndex_from p l i = (i + Z.of_nat n)%Z /\
    nth_error l n = Some w /\ p w = true /\
    (forall j w', (j < n)%nat -> nth_error l j = Some w' -> p w' = false).
Proof.
  revert i. induction l as [|x l IH]; intros i [w [Hin Hp]]; [destruct Hin|].
  simpl. destruct (p x) eqn:Px.
  - exists 0%nat, x. split; [lia|split; [reflexivity|split; [exact Px|]]].
    intros j w' Hj. lia.
  - destruct Hin as [->|Hin]; [congruence|].
    destruct (IH (i + 1)%Z (ex_intro _ w (conj Hin Hp))) as (n & w' & E & Hn & Pw & Hf).
    exists (S n), w'. split; [rewrite E; lia|split; [exact Hn|split; [exact Pw|]]].
    intros [|j] w'' Hj H; simpl in H.
    + injection H as <-. exact Px.
    + apply (Hf j); [lia|exact H].
Qed.

Lemma eps_self (v : Q) :
  num_le (num_abs (num_sub (Fin v) (Fin v))) zoom_eps = true.
Proof.
  cbn [num_le num_abs num_sub zoom_eps]. apply Qle_bool_iff. apply Qabs_Qle_condition.
  assert (0 < 1 # 10000000000) by reflexivity. lra.
Qed.

Lemma getZoomForScale_fin (q : Q) (x : Q) (rest : list Q) (u : string) :
  0 <= q ->
  getZoomForScale (Fin q) (map Fin (x :: rest)) u =
  Normal (findIndex (map Fin (x :: rest))
            (fun o => num_le (num_abs (num_sub o
               (fold_left (zoom_step (getResolutionForScale (Fin q) u))
                          (map Fin rest) (Fin x)))) zoom_eps)).
Proof.
  intro Hq. unfold getZoomForScale. simpl isNaN. cbv iota.
  unfold num_lt at 1. rewrite (Qltb_false q 0 Hq). reflexivity.
Qed.

Lemma getResolutionForScale_fin (q : Q) (u : string) :
  recognized_unit u = true ->
  exists m, 0 < m * 39.37 * (25.4 / 0.28) /\
    getResolutionForScale (Fin q) u = Fin (q / (m * 39.37 * (25.4 / 0.28))).
Proof.
  intro Hu. destruct (METERS_PER_UNIT_pos u Hu) as [m [E Hm]].
  assert (Hk : 0 < m * 39.37 * (25.4 / 0.28)).
  { apply Qmult_lt_0_compat; [apply Qmult_lt_0_compat|]; try assumption; reflexivity. }
  exists m. split; [exact Hk|].
  unfold getResolutionForScale, parseFloat.
  rewrite (conversion_factor u m E Hm). now rewrite num_div_pos.
Qed.

Lemma eps_test_fin (w v : Q) :
  num_le (num_abs (num_sub (Fin w) (Fin v))) zoom_eps =
  Qle_bool (Qabs (w - v)) (1 # 10000000000).
Proof. reflexivity. Qed.

Lemma nth_error_map_Fin (l : list Q) (n : nat) (o : num) :
  nth_error (map Fin l) n = Some o -> exists w, o = Fin w /\ nth_error l n = Some w.
Proof.
  rewrite nth_error_map. destruct (nth_error l n) as [w|]; simpl; [|discriminate].
  intro H. injection H as <-. now exists w.
Qed.

(** ** C2: the nearest entry of the ladder *)

(** Claim C2 (as amended): for a finite non-negative scale, a non-empty
    ladder of finite resolutions and a recognized unit, [getZoomForScale]
    converts the scale to the resolution [c] with [getResolutionForScale];
    the reduction picks the first entry [v] (at index [k]) of minimal
    distance to [c]; the result is the first index [i] whose entry lies
    within [1e-10] of [v].  So [i <= k], and [i = k] when no entry before
    index [k] lies within [1e-10] of [v].  For the ladder
    [[100, 50, 25, 12.5]] and the scale of resolution [50] the result is [1]. *)
Theorem getZoomForScale_nearest (q : Q) (ls : list Q) (u : string) :
  0 <= q -> ls <> [] -> recognized_unit u = true ->
  (exists c k v i,
    getResolutionForScale (Fin q) u = Fin c /\
    nth_error ls k = Some v /\
    (forall j w, nth_error ls j = Some w -> Qabs (v - c) <= Qabs (w - c)) /\
    (forall j w, (j < k)%nat -> nth_error ls j = Some w -> Qabs (v - c) < Qabs (w - c)) /\
    getZoomForScale (Fin q) (map Fin ls) u = Normal (Z.of_nat i) /\
    (exists w, nth_error ls i = Some w /\ Qabs (w - v) <= 1 # 10000000000) /\
    (forall j w, (j < i)%nat -> nth_error ls j = Some w -> 1 # 10000000000 < Qabs (w - v)) /\
    (i <= k)%nat /\
    ((forall j w, (j < k)%nat -> nth_error ls j = Some w -> 1 # 10000000000 < Qabs (w - v)) ->
     i = k)) /\
  getZoomForScale (getScaleForResolution (Fin 50) "m")
                  [Fin 100; Fin 50; Fin 25; Fin 12.5] "m" = Normal 1%Z.
Proof.
  intros Hq Hne Hu. split; [|vm_compute; reflexivity].
  destruct ls as [|x rest]; [congruence|].
  destruct (getResolutionForScale_fin q u Hu) as [m [_ Ec]].
  set (c := q / (m * 39.37 * (25.4 / 0.28))) in Ec.
  destruct (nearer_fold_first_min c rest x) as (k & Hk & Hall & Hfirst).
  set (v := fold_left (nearer c) rest x) in *.
  rewrite (getZoomForScale_fin q x rest u Hq), Ec.
  change (Fin x :: map Fin rest) with (map Fin (x :: rest)).
  rewrite zoom_fold_fin. fold v. unfold findIndex.
  set (p := fun o => num_le (num_abs (num_sub o (Fin v))) zoom_eps).
  assert (Pv : p (Fin v) = true) by apply eps_self.
  assert (Inv : In (Fin v) (map Fin (x :: rest))).
  { apply in_map. eapply nth_error_In. exact Hk. }
  destruct (findIndex_from_first p (map Fin (x :: rest)) 0%Z
              (ex_intro _ (Fin v) (conj Inv Pv))) as (n & o & E & Hn & Po & Hf).
  destruct (nth_error_map_Fin _ _ _ Hn) as [w [-> Hw]].
  assert (Hfq : forall j w', (j < n)%nat -> nth_error (x :: rest) j = Some w' ->
                 1 # 10000000000 < Qabs (w' - v)).
  { intros j w' Hj H. assert (Pj := Hf j (Fin w') Hj).
    rewrite nth_error_map, H in Pj. specialize (Pj eq_refl).
    unfold p in Pj. rewrite eps_test_fin in Pj.
    destruct (Qlt_le_dec (1 # 10000000000) (Qabs (w' - v))) as [L|L]; [exact L|].
    apply Qle_bool_iff in L. congruence. }
  assert (Nk : (n <= k)%nat).
  { destruct (Nat.le_gt_cases n k) as [L|L]; [exact L|].
    specialize (Hfq k v L Hk). assert (Qabs (v - v) == 0) as Z0.
    { rewrite Qabs_pos; lra. }
    lra. }
  exists c, k, v, n. repeat split; try assumption.
  - rewrite E. f_equal.
  - exists w. split; [exact Hw|]. unfold p in Po. rewrite eps_test_fin in Po.
    now apply Qle_bool_iff.
  - intro Hbefore. destruct (Nat.lt_ge_cases n k) as [L|L]; [|lia].
    specialize (Hbefore n w L Hw). unfold p in Po. rewrite eps_test_fin in Po.
    apply Qle_bool_iff in Po. lra.
Qed.

Lemma getZoomForScale_nearest_witness :
  0 <= 500 /\ [50; 25] <> [] /\ recognized_unit "m" = true /\
  getZoomForScale (Fin 500) [Fin 50; Fin 25] "m" = Normal 1%Z.
Proof.
  split; [lra|split; [discriminate|split; [reflexivity|]]].
  destruct (getZoomForScale_nearest 500 [50; 25] "m") as [_ _];
    [lra|discriminate|reflexivity|].
  vm_compute. reflexivity.
Defined.

(** Claim C2 as stated fails for a ladder with two entries closer to each
    other than [1e-10]: at the scale of resolution [50 + 5e-11], the entry
    at index 1 is the nearest one (distance 0), yet the epsilon search of
    [findIndex] stops at index 0. *)
Lemma getZoomForScale_near_entries :
  let near := 50 + (5 # 100000000000) in
  num_same (getResolutionForScale (getScaleForResolution (Fin near) "m") "m") (Fin near) /\
  Qabs (near - near) < Qabs (50 - near) /\
  getZoomForScale (getScaleForResolution (Fin near) "m") [Fin 50; Fin near] "m"
  = Normal 0%Z.
Proof.
  intro near. split; [|split]; vm_compute; reflexivity.
Qed.

(** ** C5, C6, C10: invalid scales, empty ladders, range of the result *)

Lemma getResolutionForScale_pinf (u : string) :
  getResolutionForScale (Inf false) u = Inf false \/
  getResolutionForScale (Inf false) u = NaN.
Proof.
  destruct (recognized_unit u) eqn:Hu.
  - left. destruct (METERS_PER_UNIT_pos u Hu) as [m [E Hm]].
    assert (Hk : 0 < m * 39.37 * (25.4 / 0.28)).
    { apply Qmult_lt_0_compat; [apply Qmult_lt_0_compat|]; try assumption; reflexivity. }
    unfold getResolutionForScale, parseFloat.
    rewrite (conversion_factor u m E Hm). now rewrite num_div_pos.
  - right. unfold recognized_unit in Hu. unfold getResolutionForScale.
    destruct (METERS_PER_UNIT u); [discriminate|]. reflexivity.
Qed.

(** Against [+Infinity] or [NaN] no entry is strictly nearer than another:
    the reduction keeps the first entry. *)
Lemma zoom_fold_keep_first (c : num) (l : list Q) (x : Q) :
  c = Inf false \/ c = NaN ->
  fold_left (zoom_step c) (map Fin l) (Fin x) = Fin x.
Proof.
  intro Hc. revert x. induction l as [|y l IH]; intro x; [reflexivity|].
  simpl. replace (zoom_step c (Fin x) (Fin y)) with (Fin x); [apply IH|].
  unfold zoom_step. destruct Hc as [->| ->]; reflexivity.
Qed.

(** Claim C5: for every non-empty ladder (of finite resolutions),
    [getZoomForScale] returns [0], without raising, when the scale is NaN,
    an infinity or a negative number. *)
Theorem getZoomForScale_invalid_scale (scale : num) (ls : list Q) (u : string) :
  ls <> [] ->
  (scale = NaN \/ (exists s, scale = Inf s) \/ (exists q, scale = Fin q /\ q < 0)) ->
  getZoomForScale scale (map Fin ls) u = Normal 0%Z.
Proof.
  intros Hne Hs. destruct Hs as [->|[[[|] ->]|[q [-> Hq]]]].
  - reflexivity.
  - reflexivity.
  - destruct ls as [|x rest]; [congruence|].
    unfold getZoomForScale. simpl isNaN. cbv iota. simpl num_lt. cbv iota.
    simpl reduce. cbv iota zeta.
    rewrite (zoom_fold_keep_first _ rest x (getResolutionForScale_pinf u)).
    unfold findIndex. cbn [map findIndex_from]. now rewrite eps_self.
  - unfold getZoomForScale. simpl isNaN. cbv iota. unfold num_lt at 1.
    now rewrite (proj2 (Qltb_iff q 0) Hq).
Qed.

Lemma getZoomForScale_invalid_scale_witness :
  [100; 50] <> [] /\
  (Inf false = NaN \/ (exists s, Inf false = Inf s) \/
   (exists q, Inf false = Fin q /\ q < 0)) /\
  getZoomForScale (Inf false) [Fin 100; Fin 50] "m" = Normal 0%Z.
Proof.
  assert (Hne : [100; 50] <> []) by discriminate.
  assert (Hs : Inf false = NaN \/ (exists s, Inf false = Inf s) \/
               (exists q, Inf false = Fin q /\ q < 0)) by (right; left; now exists false).
  split; [exact Hne|split; [exact Hs|]].
  exact (getZoomForScale_invalid_scale (Inf false) [100; 50] "m" Hne Hs).
Defined.

(** Claim C6 (as amended): with an empty ladder and a finite non-negative
    scale, [getZoomForScale] has no guard of its own: the [reduce] without
    initial value throws the engine's generic [TypeError]. *)
Theorem getZoomForScale_empty_ladder (q : Q) (u : string) :
  0 <= q -> getZoomForScale (Fin q) [] u = Throw TypeError.
Proof.
  intro Hq. unfold getZoomForScale. simpl isNaN. cbv iota.
  unfold num_lt at 1. now rewrite (Qltb_false q 0 Hq).
Qed.

Lemma getZoomForScale_empty_ladder_witness :
  0 <= 25000 /\ getZoomForScale (Fin 25000) [] "m" = Throw TypeError.
Proof.
  split; [lra|]. apply getZoomForScale_empty_ladder. lra.
Defined.

(** Claim C6 as stated fails: no [InvalidArgument] error is signalled for
    an empty ladder; the error is the [TypeError] of [reduce]. *)
Lemma getZoomForScale_empty_ladder_error :
  getZoomForScale (Fin 1) [] "m" = Throw TypeError /\
  getZoomForScale (Fin 1) [] "m" <> Throw InvalidArgument.
Proof.
  split; [reflexivity|]. vm_compute. discriminate.
Qed.

(** Claim C10: for every finite non-negative scale and every non-empty
    ladder (of finite resolutions), [getZoomForScale] returns an index in
    [[0, length resolutions)], never [-1]: the reduction returns one of the
    entries, and that entry passes the epsilon test of [findIndex]. *)
Theorem getZoomForScale_in_range (q : Q) (ls : list Q) (u : string) :
  0 <= q -> ls <> [] ->
  exists i, getZoomForScale (Fin q) (map Fin ls) u = Normal i /\
            (0 <= i < Z.of_nat (List.length ls))%Z.
Proof.
  intros Hq Hne. destruct ls as [|x rest]; [congruence|].
  rewrite (getZoomForScale_fin q x rest u Hq).
  set (closest := fold_left (zoom_step (getResolutionForScale (Fin q) u))
                            (map Fin rest) (Fin x)).
  assert (Hin : In closest (map Fin (x :: rest))) by apply zoom_fold_In.
  assert (Hfin := Hin). apply in_map_iff in Hfin. destruct Hfin as [w [Hw _]].
  set (p := fun o => num_le (num_abs (num_sub o closest)) zoom_eps).
  assert (Pc : p closest = true) by (unfold p; rewrite <- Hw; apply eps_self).
  destruct (findIndex_from_first p (map Fin (x :: rest)) 0%Z
              (ex_intro _ closest (conj Hin Pc))) as (n & o & E & Hn & _ & _).
  exists (Z.of_nat n). split; [unfold findIndex; rewrite E; reflexivity|].
  assert (L : (n < List.length (map Fin (x :: rest)))%nat).
  { apply nth_error_Some. congruence. }
  rewrite length_map in L. lia.
Qed.

Lemma getZoomForScale_in_range_witness :
  0 <= 5000 /\ [100; 50; 25; 12.5] <> [] /\
  getZoomForScale (Fin 5000) [Fin 100; Fin 50; Fin 25; Fin 12.5] "m" = Normal 3%Z.
Proof.
  split; [lra|split; [discriminate|]].
  destruct (getZoomForScale_in_range 5000 [100; 50; 25; 12.5] "m") as [i [E _]];
    [lra|discriminate|].
  vm_compute. reflexivity.
Defined.

(** ** C1: flattening a layer group *)

Lemma layers_of_group_Group (i : nat) (cs : list layer_node) :
  layers_of_group (Group i cs) = flat_map leaf_part cs.
Proof.
  induction cs as [|c r IH]; [reflexivity|].
  simpl in *. rewrite IH. reflexivity.
Qed.

Lemma preorder_Group (i : nat) (cs : list layer_node) :
  preorder (Group i cs) = Group i cs :: flat_map preorder cs.
Proof.
  simpl. f_equal.
Qed.

Lemma count_leaves_Group (i : nat) (cs : list layer_node) :
  count_leaves (Group i cs) = list_sum (map count_leaves cs).
Proof.
  induction cs as [|c r IH]; [reflexivity|].
  simpl in *. now rewrite IH.
Qed.

Lemma filter_flat_map {A B : Type} (f : B -> bool) (g : A -> list B) (l : list A) :
  filter f (flat_map g l) = flat_map (fun x => filter f (g x)) l.
Proof.
  induction l as [|x l IH]; [reflexivity|]. simpl. now rewrite filter_app, IH.
Qed.

Lemma flat_map_Forall_ext {A B : Type} (f g : A -> list B) (l : list A) :
  Forall (fun x => f x = g x) l -> flat_map f l = flat_map g l.
Proof.
  induction 1 as [|x l Hx _ IH]; [reflexivity|]. simpl. now rewrite Hx, IH.
Qed.

Lemma leaf_part_preorder (n : layer_node) :
  leaf_part n = filter is_leaf (preorder n).
Proof.
  induction n as [i|i cs IH] using layer_node_ind'; [reflexivity|].
  unfold leaf_part. simpl is_group. cbv iota.
  rewrite layers_of_group_Group, preorder_Group. simpl filter.
  rewrite filter_flat_map. apply flat_map_Forall_ext. exact IH.
Qed.

Lemma leaf_part_length (n : layer_node) :
  List.length (leaf_part n) = count_leaves n.
Proof.
  induction n as [i|i cs IH] using layer_node_ind'; [reflexivity|].
  unfold leaf_part. simpl is_group. cbv iota.
  rewrite layers_of_group_Group, count_leaves_Group.
  induction IH as [|c r Hc _ IHr]; [reflexivity|].
  simpl. rewrite length_app, Hc, IHr. reflexivity.
Qed.

(** Claim C1: for every group [g] (of any map), [getLayersByGroup] returns
    exactly the leaf layers of [g] in depth-first traversal order, never a
    group; its length is the number of leaves of [g]; for
    [Group1[LayerA, Group2[LayerB, LayerC]]] it returns
    [[LayerA, LayerB, LayerC]]. *)
Theorem getLayersByGroup_leaves (map : olmap) (i : nat) (cs : list layer_node) :
  let g := Group i cs in
  getLayersByGroup map g = Normal (filter is_leaf (preorder g)) /\
  List.length (filter is_leaf (preorder g)) = count_leaves g /\
  (forall x, In x (filter is_leaf (preorder g)) -> is_group x = false) /\
  getLayersByGroup map (Group 1 [Leaf 2; Group 3 [Leaf 4; Leaf 5]])
  = Normal [Leaf 2; Leaf 4; Leaf 5].
Proof.
  intro g. split; [|split; [|split]].
  - unfold getLayersByGroup. simpl is_group. cbv iota. f_equal.
    apply (leaf_part_preorder g).
  - rewrite <- leaf_part_preorder. apply leaf_part_length.
  - intros x Hx. apply filter_In in Hx. destruct Hx as [_ Hx].
    unfold is_leaf in Hx. now apply negb_true_iff in Hx.
  - reflexivity.
Qed.

(** ** C8: position of a layer in the tree *)

Lemma descendants_Group (i : nat) (cs : list layer_node) :
  descendants (Group i cs) = flat_map (fun c => c :: descendants c) cs.
Proof.
  induction cs as [|c r IH]; [reflexivity|].
  cbn [descendants flat_map] in *. now rewrite <- IH.
Qed.

Lemma positionInfo_Group (layer : layer_node) (i : nat) (cs : list layer_node) :
  positionInfo layer (Group i cs) =
  if (indexOf cs layer <? 0)%Z then positionInfo_children layer cs empty_info
  else mkInfo (Some (indexOf cs layer)) (Some (Group i cs)).
Proof.
  cbn [positionInfo]. destruct (indexOf cs layer <? 0)%Z; [|reflexivity].
  generalize empty_info. induction cs as [|c r IH]; intro inf; [reflexivity|].
  cbn [positionInfo_children]. apply IH.
Qed.

Lemma in_subtreeb_iff (layer root : layer_node) :
  in_subtreeb layer root = true <-> in_subtree layer root.
Proof.
  unfold in_subtreeb, in_subtree. rewrite existsb_exists.
  split; intros [x [H E]]; exists x; split; try assumption.
  - now apply Nat.eqb_eq.
  - now apply Nat.eqb_eq.
Qed.

Lemma indexOf_spec (ls : list layer_node) (layer : layer_node) :
  (indexOf ls layer = (-1)%Z /\ forall x, In x ls -> node_id x <> node_id layer) \/
  (exists n x, indexOf ls layer = Z.of_nat n /\ nth_error ls n = Some x /\
     node_id x = node_id layer /\
     forall j y, (j < n)%nat -> nth_error ls j = Some y -> node_id y <> node_id layer).
Proof.
  induction ls as [|l r IH].
  - left. split; [reflexivity|]. intros x [].
  - simpl. destruct (Nat.eqb (node_id l) (node_id layer)) eqn:E.
    + right. exists 0%nat, l. apply Nat.eqb_eq in E.
      repeat split; [assumption|]. intros j y Hj. lia.
    + apply Nat.eqb_neq in E. destruct IH as [[E1 H1]|(n & x & E1 & H1 & H2 & H3)].
      * left. rewrite E1. split; [reflexivity|].
        intros x [<-|Hx]; [assumption|]. now apply H1.
      * right. exists (S n), x. rewrite E1.
        assert (Hn : (Z.of_nat n <? 0)%Z = false) by (apply Z.ltb_ge; lia).
        rewrite Hn. repeat split; [lia|assumption|assumption|].
        intros [|j] y Hj Hy; simpl in Hy.
        -- injection Hy as <-. exact E.
        -- apply (H3 j y); [lia|exact Hy].
Qed.

Lemma positionInfo_children_keep (layer : layer_node) (ls : list layer_node) (inf : info) :
  has_groupLayer inf = true -> positionInfo_children layer ls inf = inf.
Proof.
  intro H. induction ls as [|c r IH]; [reflexivity|].
  simpl. rewrite H, andb_false_r. exact IH.
Qed.

Lemma positionInfo_children_prefix (layer : layer_node) (pre rest : list layer_node) :
  (forall c, In c pre -> is_group c = true -> positionInfo layer c = empty_info) ->
  positionInfo_children layer (pre ++ rest) empty_info =
  positionInfo_children layer rest empty_info.
Proof.
  induction pre as [|c pre IH]; intro H; [reflexivity|].
  simpl. destruct (is_group c) eqn:G; simpl.
  - rewrite (H c (or_introl eq_refl) G). apply IH. intros; apply H; [now right|assumption].
  - apply IH. intros; apply H; [now right|assumption].
Qed.

Lemma positionInfo_children_hit (layer c : layer_node) (post : list layer_node) :
  is_group c = true -> has_groupLayer (positionInfo layer c) = true ->
  positionInfo_children layer (c :: post) empty_info = positionInfo layer c.
Proof.
  intros G H. simpl. rewrite G. simpl. now apply positionInfo_children_keep.
Qed.

Lemma list_first_split {A : Type} (f : A -> bool) (l : list A) :
  (exists a, In a l /\ f a = true) ->
  exists pre a post, l = pre ++ a :: post /\ f a = true /\
                     (forall b, In b pre -> f b = false).
Proof.
  induction l as [|x l IH]; intros [a [Ha Fa]]; [destruct Ha|].
  destruct (f x) eqn:Fx.
  - exists [], x, l. repeat split; [assumption|]. intros b [].
  - destruct Ha as [->|Ha]; [congruence|].
    destruct (IH (ex_intro _ a (conj Ha Fa))) as (pre & a' & post & E & Fa' & Hpre).
    exists (x :: pre), a', post. rewrite E. repeat split; [assumption|].
    intros b [<-|Hb]; [assumption|]. now apply Hpre.
Qed.

Lemma in_subtree_child (layer c : layer_node) (i : nat) (cs : list layer_node) :
  In c cs -> in_subtree layer c -> in_subtree layer (Group i cs).
Proof.
  intros Hc [x [Hx E]]. exists x. split; [|exact E].
  rewrite descendants_Group. apply in_flat_map. exists c. split; [exact Hc|now right].
Qed.

Lemma positionInfo_correct (layer root : layer_node) :
  is_group root = true ->
  (~ in_subtree layer root -> positionInfo layer root = empty_info) /\
  (in_subtree layer root ->
   exists g n, positionInfo layer root = mkInfo (Some (Z.of_nat n)) (Some g) /\
               owner_at layer root g n).
Proof.
  induction root as [i|i cs IH] using layer_node_ind'; [discriminate|].
  intros _. rewrite Forall_forall in IH. rewrite positionInfo_Group.
  destruct (indexOf_spec cs layer) as [[E1 H1]|(n & x & E1 & Hx & Hid & Hfirst)].
  - rewrite E1. simpl Z.ltb. cbv iota.
    assert (Hnone : forall c, In c cs -> is_group c = true -> ~ in_subtree layer c ->
                    positionInfo layer c = empty_info).
    { intros c Hc G N. exact (proj1 (IH c Hc G) N). }
    split.
    + intro N. rewrite <- (app_nil_r cs). rewrite positionInfo_children_prefix; [reflexivity|].
      intros c Hc G. apply Hnone; [exact Hc|exact G|].
      intro S. apply N. exact (in_subtree_child layer c i cs Hc S).
    + intros [x [Hx Ex]]. rewrite descendants_Group in Hx.
      apply in_flat_map in Hx. destruct Hx as [c [Hc [Ec|Hx]]].
      { subst c. exfalso. exact (H1 x Hc Ex). }
      assert (G : is_group c = true) by (destruct c; [destruct Hx|reflexivity]).
      destruct (list_first_split (fun c => is_group c && in_subtreeb layer c) cs)
        as (pre & c' & post & Ecs & Fc' & Hpre).
      { exists c. split; [exact Hc|]. rewrite G. simpl.
        apply in_subtreeb_iff. now exists x. }
      apply andb_true_iff in Fc'. destruct Fc' as [G' S'].
      apply in_subtreeb_iff in S'.
      assert (Hc' : In c' cs) by (rewrite Ecs; apply in_or_app; right; now left).
      destruct (proj2 (IH c' Hc' G') S') as (g & n & Eg & Og).
      rewrite Ecs, positionInfo_children_prefix.
      * rewrite positionInfo_children_hit; [|exact G'|now rewrite Eg].
        exists g, n. split; [exact Eg|].
        destruct Og as (Hg & Gg & Hn & Hf). repeat split; try assumption.
        right. rewrite descendants_Group. apply in_flat_map. exists c'.
        split; [rewrite <- Ecs; exact Hc'|]. destruct Hg as [->|Hg]; [now left|now right].
      * intros b Hb Gb. apply Hnone.
        -- rewrite Ecs. apply in_or_app. now left.
        -- exact Gb.
        -- intro Sb. specialize (Hpre b Hb). rewrite Gb in Hpre. simpl in Hpre.
           apply in_subtreeb_iff in Sb. congruence.
  - rewrite E1. assert (Hn : (Z.of_nat n <? 0)%Z = false) by (apply Z.ltb_ge; lia).
    rewrite Hn. split.
    + intro N. exfalso. apply N. exists x. split; [|exact Hid].
      rewrite descendants_Group. apply in_flat_map. exists x.
      split; [exact (nth_error_In cs n Hx)|now left].
    + intros _. exists (Group i cs), n. split; [reflexivity|].
      split; [now left|split; [reflexivity|split; [now exists x|exact Hfirst]]].
Qed.

Lemma getLayerPositionInfo_root (layer : layer_node) (a : group_or_map) (root : layer_node) :
  root_group a = Some root ->
  is_group root = true /\ getLayerPositionInfo layer a = Normal (positionInfo layer root).
Proof.
  destruct a as [g|m]; simpl.
  - destruct (is_group g) eqn:G; intro H; [|discriminate]. injection H as <-. now split.
  - intro H. injection H as <-. now split.
Qed.

(** Claim C8: for a root group or map, [getLayerPositionInfo] returns the
    empty object (no [groupLayer] key) when [layer] is nowhere below the root;
    otherwise it returns a group of the tree that owns [layer] together with
    the first index of [layer] among that group's children.  When [layer] is
    not a direct child, the answer is the one of the first child group whose
    subtree holds [layer]: later sibling subtrees are not searched.  For
    [Group1[LayerA, Group2[LayerB, LayerC]]], [LayerC] is at index 1 of
    [Group2]. *)
Theorem getLayerPositionInfo_spec (layer : layer_node) (a : group_or_map)
  (root : layer_node) :
  root_group a = Some root ->
  (~ in_subtree layer root -> getLayerPositionInfo layer a = Normal empty_info) /\
  (in_subtree layer root ->
   exists g n, getLayerPositionInfo layer a =
               Normal (mkInfo (Some (Z.of_nat n)) (Some g)) /\
               owner_at layer root g n) /\
  (forall pre c post,
     children root = pre ++ c :: post ->
     (forall x, In x (children root) -> node_id x <> node_id layer) ->
     is_group c = true -> in_subtree layer c ->
     (forall c', In c' pre -> is_group c' = true -> ~ in_subtree layer c') ->
     getLayerPositionInfo layer a = Normal (positionInfo layer c)) /\
  getLayerPositionInfo (Leaf 5) (GroupArg (Group 1 [Leaf 2; Group 3 [Leaf 4; Leaf 5]]))
  = Normal (mkInfo (Some 1%Z) (Some (Group 3 [Leaf 4; Leaf 5]))).
Proof.
  intro Ha. destruct (getLayerPositionInfo_root layer a root Ha) as [G ->].
  destruct (positionInfo_correct layer root G) as [Hn Hs].
  split; [|split; [|split]].
  - intro N. now rewrite (Hn N).
  - intro S. destruct (Hs S) as (g & n & E & O). exists g, n. now rewrite E.
  - intros pre c post Ec Hnot Gc Sc Hpre. f_equal.
    destruct root as [i|i cs]; [discriminate|]. simpl children in Ec, Hnot.
    rewrite positionInfo_Group.
    destruct (indexOf_spec cs layer) as [[E1 _]|(n & x & _ & Hx & Hid & _)].
    + rewrite E1. simpl Z.ltb. cbv iota. rewrite Ec, positionInfo_children_prefix.
      * apply positionInfo_children_hit; [exact Gc|].
        destruct (proj2 (positionInfo_correct layer c Gc) Sc) as (g & n & E & _).
        now rewrite E.
      * intros c' Hc' Gc'. exact (proj1 (positionInfo_correct layer c' Gc') (Hpre c' Hc' Gc')).
    + exfalso. exact (Hnot x (nth_error_In cs n Hx) Hid).
  - reflexivity.
Qed.

Lemma getLayerPositionInfo_spec_witness :
  root_group (GroupArg (Group 1 [Leaf 2; Group 3 [Leaf 4; Leaf 5]]))
  = Some (Group 1 [Leaf 2; Group 3 [Leaf 4; Leaf 5]]) /\
  getLayerPositionInfo (Leaf 9) (GroupArg (Group 1 [Leaf 2; Group 3 [Leaf 4; Leaf 5]]))
  = Normal empty_info.
Proof.
  split; [reflexivity|].
  apply (getLayerPositionInfo_spec (Leaf 9) _ (Group 1 [Leaf 2; Group 3 [Leaf 4; Leaf 5]]));
    [reflexivity|].
  intros [x [Hx E]]. simpl in Hx. simpl in E.
  repeat (destruct Hx as [<-|Hx]; [discriminate|]). destruct Hx.
Defined.

(** ** C9: legend URLs *)

Section LegendProofs.
Local Open Scope string_scope.

Lemma obj_get_set (o : obj) (k k' : string) (v : option string) :
  obj_get (obj_set o k v) k' = if String.eqb k' k then Some v else obj_get o k'.
Proof.
  induction o as [|[k0 v0] r IH]; simpl.
  - reflexivity.
  - destruct (String.eqb k k0) eqn:E.
    + apply String.eqb_eq in E. subst k0. simpl.
      destruct (String.eqb k' k); reflexivity.
    + simpl. rewrite IH. destruct (String.eqb k' k0) eqn:E'; [|reflexivity].
      apply String.eqb_eq in E'. subst k'.
      rewrite String.eqb_sym, E. reflexivity.
Qed.

Lemma obj_get_notin (o : obj) (k : string) :
  ~ In k (map fst o) -> obj_get o k = None.
Proof.
  induction o as [|[k0 v0] r IH]; intro H; [reflexivity|]. simpl in *.
  destruct (String.eqb k k0) eqn:E.
  - apply String.eqb_eq in E. subst. exfalso. apply H. now left.
  - apply IH. intro H'. apply H. now right.
Qed.

(** [Object.assign]: the properties of the source win. *)
Lemma Object_assign_get (target src : obj) (k : string) :
  NoDup (map fst src) ->
  obj_get (Object_assign target src) k =
  match obj_get src k with Some v => Some v | None => obj_get target k end.
Proof.
  unfold Object_assign. revert target.
  induction src as [|[k1 v1] r IH]; intros target Hnd; [reflexivity|].
  simpl in Hnd. inversion Hnd as [|? ? Hnotin Hnd']. subst.
  simpl fold_left. rewrite (IH _ Hnd').
  rewrite obj_get_set. cbn [obj_get]. destruct (String.eqb k k1) eqn:E.
  - apply String.eqb_eq in E. subst k1. now rewrite obj_get_notin.
  - reflexivity.
Qed.

End LegendProofs.

Section LegendSpec.
Local Open Scope string_scope.

(** Claim C9: for a layer with a tiled or single-image WMS source and any
    encoder [objectToRequestString], [getLegendGraphicUrl] encodes the
    parameters [{LAYER: params.LAYERS, VERSION: "1.3.0", SERVICE: "WMS",
    REQUEST: "getLegendGraphic", FORMAT: "image/png"}] overlaid with
    [extraParams] (a caller value wins on a shared key), and appends the
    query string to the base URL with [?], or with [&] when the URL already
    contains a [?].  For a tiled source with URL ["http://x/wms"] and
    params [{LAYERS: "foo"}] the encoder receives exactly
    [LAYER=foo, VERSION=1.3.0, SERVICE=WMS, REQUEST=getLegendGraphic,
    FORMAT=image/png] and the separator is [?]. *)
Theorem getLegendGraphicUrl_spec (enc : obj -> string) (l : olayer) (src : source)
  (extraParams : obj) :
  layer_source l = Some src -> is_wms_source src = true ->
  NoDup (map fst extraParams) ->
  let base : obj :=
    [("LAYER", param_get (getParams src) "LAYERS"); ("VERSION", Some "1.3.0");
     ("SERVICE", Some "WMS"); ("REQUEST", Some "getLegendGraphic");
     ("FORMAT", Some "image/png")] in
  let url := url_text (legend_base_url src) in
  getLegendGraphicUrl enc (Some l) extraParams =
    Some (url ++ (if has_question_mark url then "&" else "?") ++
          enc (Object_assign base extraParams)) /\
  (forall k, obj_get (Object_assign base extraParams) k =
             match obj_get extraParams k with
             | Some v => Some v
             | None => obj_get base k
             end) /\
  getLegendGraphicUrl enc
    (Some (mkLayer (Fin 0) (Inf false)
             (Some (TileWMS (Some ["http://x/wms"]) [("LAYERS", "foo")])))) []
  = Some ("http://x/wms?" ++
          enc [("LAYER", Some "foo"); ("VERSION", Some "1.3.0");
               ("SERVICE", Some "WMS"); ("REQUEST", Some "getLegendGraphic");
               ("FORMAT", Some "image/png")]).
Proof.
  intros Hs Hw Hnd base url. split; [|split].
  - unfold getLegendGraphicUrl, url, base. rewrite Hs.
    destruct src as [[urls|] p|u p|]; try discriminate; cbn [legend_base_url];
      destruct (has_question_mark _); reflexivity.
  - intro k. now apply Object_assign_get.
  - reflexivity.
Qed.

End LegendSpec.

Lemma getLegendGraphicUrl_spec_witness :
  let l := mkLayer (Fin 0) (Inf false)
             (Some (ImageWMS (Some "http://x/wms?map=a") [("LAYERS", "foo")]))%string in
  layer_source l = Some (ImageWMS (Some "http://x/wms?map=a") [("LAYERS", "foo")])%string /\
  is_wms_source (ImageWMS (Some "http://x/wms?map=a") [("LAYERS", "foo")])%string = true /\
  NoDup (map fst [("FORMAT", Some "image/gif")])%string /\
  getLegendGraphicUrl join_params (Some l) [("FORMAT", Some "image/gif")]%string
  = Some ("http://x/wms?map=a&LAYER=foo&VERSION=1.3.0&SERVICE=WMS&REQUEST=getLegendGraphic&FORMAT=image/gif")%string.
Proof.
  intro l. split; [reflexivity|split; [reflexivity|split]].
  - constructor; [intros []|constructor].
  - destruct (getLegendGraphicUrl_spec join_params l
                (ImageWMS (Some "http://x/wms?map=a") [("LAYERS", "foo")])%string
                [("FORMAT", Some "image/gif")]%string) as [E _];
      [reflexivity|reflexivity|constructor; [intros []|constructor]|].
    rewrite E. reflexivity.
Defined.

(* ================================================================== *)
(** * Further properties of MapUtil and AnimateUtil *)

(* ------------------------------------------------------------------ *)
(** ** Collecting the layers of a map or group *)

Lemma allLayers_of_Group (i : nat) (cs : list layer_node) (f : layer_node -> bool) :
  allLayers_of (Group i cs) f =
  flat_map (fun c => (if is_group c then filter f (allLayers_of c default_filter)
                      else []) ++ (if f c then [c] else [])) cs.
Proof.
  induction cs as [|c r IH]; [reflexivity|].
  simpl in *. now rewrite IH.
Qed.

Lemma postorder_below_Group (i : nat) (cs : list layer_node) :
  postorder_below (Group i cs) = flat_map (fun c => postorder_below c ++ [c]) cs.
Proof.
  induction cs as [|c r IH]; [reflexivity|].
  simpl in *. now rewrite IH.
Qed.

Lemma filter_default (l : list layer_node) : filter default_filter l = l.
Proof.
  induction l as [|x l IH]; [reflexivity|]. simpl. now rewrite IH.
Qed.

Lemma allLayers_of_postorder (n : layer_node) :
  forall f, allLayers_of n f = filter f (postorder_below n).
Proof.
  induction n as [i|i cs IH] using layer_node_ind'; intro f; [reflexivity|].
  rewrite allLayers_of_Group, postorder_below_Group, filter_flat_map.
  apply flat_map_Forall_ext. revert IH. apply Forall_impl. intros c Hc.
  rewrite filter_app. destruct c as [j|j ds].
  - reflexivity.
  - cbn [is_group]. rewrite Hc, filter_default. reflexivity.
Qed.

Lemma getAllLayers_root (c : group_or_map) (root : layer_node) (f : layer_node -> bool) :
  root_group c = Some root -> getAllLayers (Some c) f = allLayers_of root f.
Proof.
  unfold root_group, getAllLayers. destruct c as [g|m].
  - destruct (is_group g); intro H; [now injection H as <-|discriminate H].
  - intro H. now injection H as <-.
Qed.

Lemma postorder_below_perm (n : layer_node) :
  Permutation (postorder_below n) (descendants n).
Proof.
  induction n as [i|i cs IH] using layer_node_ind'; [constructor|].
  rewrite postorder_below_Group, descendants_Group.
  induction IH as [|c r Hc _ IHr]; [constructor|].
  cbn [flat_map]. apply Permutation_app; [|exact IHr].
  apply Permutation_trans with (c :: postorder_below c).
  - apply Permutation_sym, Permutation_cons_append.
  - apply perm_skip, Hc.
Qed.

Lemma getAllLayers_default (c : group_or_map) (root : layer_node) :
  root_group c = Some root ->
  getAllLayers (Some c) default_filter = postorder_below root.
Proof.
  intro H. rewrite (getAllLayers_root c root _ H), allLayers_of_postorder.
  apply filter_default.
Qed.

Lemma getAllLayers_In (c : group_or_map) (root x : layer_node) :
  root_group c = Some root ->
  In x (getAllLayers (Some c) default_filter) <-> In x (descendants root).
Proof.
  intro H. rewrite (getAllLayers_default c root H).
  split; apply Permutation_in; [|apply Permutation_sym]; apply postorder_below_perm.
Qed.

Lemma filter_empty_iff {A : Type} (p : A -> bool) (l : list A) :
  filter p l = [] <-> forall x, In x l -> p x = false.
Proof.
  induction l as [|y l IH]; [simpl; tauto|].
  simpl. destruct (p y) eqn:E; split.
  - discriminate.
  - intro H. rewrite (H y (or_introl eq_refl)) in E. discriminate.
  - intros H x [<-|Hx]; [exact E|]. now apply IH.
  - intro H. apply IH. intros x Hx. apply H. now right.
Qed.

(** Extra X1 ([getAllLayers]): for a map or a group, [getAllLayers]
    returns the nodes below it, groups included, that pass the filter, in
    depth-first post-order: the layers of a group come before the group. *)
Theorem getAllLayers_postorder (c : group_or_map) (root : layer_node)
  (f : layer_node -> bool) :
  root_group c = Some root ->
  getAllLayers (Some c) f = filter f (postorder_below root).
Proof.
  intro H. rewrite (getAllLayers_root c root f H). apply allLayers_of_postorder.
Qed.

Lemma getAllLayers_postorder_witness :
  root_group (MapArg (mkMap 0 [Leaf 1; Group 2 [Leaf 3]] None))
    = Some (Group 0 [Leaf 1; Group 2 [Leaf 3]]) /\
  getAllLayers (Some (MapArg (mkMap 0 [Leaf 1; Group 2 [Leaf 3]] None))) is_leaf
    = filter is_leaf (postorder_below (Group 0 [Leaf 1; Group 2 [Leaf 3]])).
Proof.
  split; [reflexivity|]. apply getAllLayers_postorder. reflexivity.
Defined.

(** Extra X2 ([getAllLayers]): with the default filter, [getAllLayers] of a
    map or a group lists every node below it exactly as often as it occurs
    in the tree: the result is a permutation of the descendants. *)
Theorem getAllLayers_permutation (c : group_or_map) (root : layer_node) :
  root_group c = Some root ->
  Permutation (getAllLayers (Some c) default_filter) (descendants root).
Proof.
  intro H. rewrite (getAllLayers_default c root H). apply postorder_below_perm.
Qed.

Lemma getAllLayers_permutation_witness :
  root_group (GroupArg (Group 0 [Group 1 [Leaf 2]; Leaf 3]))
    = Some (Group 0 [Group 1 [Leaf 2]; Leaf 3]) /\
  Permutation (getAllLayers (Some (GroupArg (Group 0 [Group 1 [Leaf 2]; Leaf 3])))
                 default_filter)
              (descendants (Group 0 [Group 1 [Leaf 2]; Leaf 3])).
Proof.
  split; [reflexivity|]. apply getAllLayers_permutation. reflexivity.
Defined.

(** Extra X3 ([getAllLayers]): although the recursive call for a nested
    group is made without the filter, the filter decides for the layers
    at every depth: the result is the unfiltered result filtered. *)
Theorem getAllLayers_filter_all_depths (c : option group_or_map)
  (f : layer_node -> bool) :
  getAllLayers c f = filter f (getAllLayers c default_filter).
Proof.
  destruct c as [[g|m]|]; cbn [getAllLayers].
  - destruct (is_group g); [|reflexivity].
    rewrite !allLayers_of_postorder, filter_default. reflexivity.
  - rewrite !allLayers_of_postorder, filter_default. reflexivity.
  - reflexivity.
Qed.

Lemma leaf_part_postorder (n : layer_node) :
  leaf_part n = filter is_leaf (postorder_below n ++ [n]).
Proof.
  induction n as [i|i cs IH] using layer_node_ind'; [reflexivity|].
  unfold leaf_part. cbn [is_group]. rewrite layers_of_group_Group, filter_app.
  replace (filter is_leaf [Group i cs]) with (@nil layer_node) by reflexivity.
  rewrite app_nil_r, postorder_below_Group, filter_flat_map.
  apply flat_map_Forall_ext. exact IH.
Qed.

(** Extra X4 ([getLayersByGroup], [getAllLayers]): for a group,
    [getLayersByGroup] returns exactly what [getAllLayers] returns for the
    group with a filter that keeps the layers that are not groups, in the
    same order. *)
Theorem getLayersByGroup_getAllLayers (map : olmap) (i : nat) (cs : list layer_node) :
  getLayersByGroup map (Group i cs) =
  Normal (getAllLayers (Some (GroupArg (Group i cs))) is_leaf).
Proof.
  unfold getLayersByGroup, getAllLayers. cbn [is_group]. f_equal.
  rewrite allLayers_of_postorder.
  change (layers_of_group (Group i cs)) with (leaf_part (Group i cs)).
  rewrite leaf_part_postorder, filter_app.
  replace (filter is_leaf [Group i cs]) with (@nil layer_node) by reflexivity.
  apply app_nil_r.
Qed.


Lemma strict_eq_iff (a b : option string) : strict_eq a b = true <-> a = b.
Proof.
  destruct a as [x|], b as [y|]; cbn [strict_eq]; split; intro H;
    try discriminate H; try reflexivity.
  - apply String.eqb_eq in H. now subst.
  - injection H as <-. apply String.eqb_refl.
Qed.

Lemma first_postorder_below (p : layer_node -> bool) (n : layer_node) :
  forall x, nth_error (filter p (postorder_below n)) 0 = Some x ->
  forall d, In d (postorder_below x) -> p d = false.
Proof.
  induction n as [i|i cs IH] using layer_node_ind'; [intros x H; discriminate H|].
  rewrite postorder_below_Group.
  induction IH as [|c r Hc _ IHr]; intros x H; [discriminate H|].
  cbn [flat_map] in H. rewrite !filter_app in H.
  destruct (filter p (postorder_below c)) as [|y ys] eqn:E.
  - cbn [app filter] in H. destruct (p c) eqn:Pc.
    + injection H as <-. apply filter_empty_iff. exact E.
    + exact (IHr x H).
  - injection H as <-. apply Hc. reflexivity.
Qed.

Section NameLookups.
Local Open Scope string_scope.

Lemma getLayerByName_postorder (state_of : nat -> layer_state) (c : group_or_map)
  (root : layer_node) (name : string) :
  root_group c = Some root ->
  getLayerByName state_of (Some c) name =
  nth_error (filter (fun l => strict_eq (layer_get state_of l "name") (Some name))
                    (postorder_below root)) 0.
Proof.
  intro H. unfold getLayerByName. now rewrite (getAllLayers_default c root H).
Qed.

(** Extra X5 ([getLayerByName]): on a map or a group, [getLayerByName]
    returns [undefined] exactly when no layer below it has the property
    [name] equal to [name]; a layer it returns lies below the map or group
    and has that name. *)
Theorem getLayerByName_found (state_of : nat -> layer_state) (c : group_or_map)
  (root : layer_node) (name : string) :
  root_group c = Some root ->
  (getLayerByName state_of (Some c) name = None <->
   forall x, In x (descendants root) -> layer_get state_of x "name" <> Some name) /\
  (forall x, getLayerByName state_of (Some c) name = Some x ->
   In x (descendants root) /\ layer_get state_of x "name" = Some name).
Proof.
  intro H. rewrite (getLayerByName_postorder state_of c root name H).
  set (p := fun l => strict_eq (layer_get state_of l "name") (Some name)).
  assert (Hin : forall x, In x (postorder_below root) <-> In x (descendants root)).
  { intro x. split; apply Permutation_in; [|apply Permutation_sym];
      apply postorder_below_perm. }
  split.
  - split.
    + intros Hn x Hx Hname.
      destruct (filter p (postorder_below root)) as [|y ys] eqn:E;
        [|discriminate Hn].
      apply filter_empty_iff with (x := x) in E; [|now apply Hin].
      unfold p in E. rewrite (proj2 (strict_eq_iff _ _) Hname) in E. discriminate E.
    + intro Hall.
      replace (filter p (postorder_below root)) with (@nil layer_node); [reflexivity|].
      symmetry. apply filter_empty_iff. intros x Hx. unfold p.
      destruct (strict_eq _ _) eqn:E; [|reflexivity].
      apply strict_eq_iff in E. exfalso. exact (Hall x (proj1 (Hin x) Hx) E).
  - intros x Hx. apply nth_error_In, filter_In in Hx. destruct Hx as [Hx Px].
    split; [now apply Hin|]. now apply strict_eq_iff.
Qed.

(** Extra X6 ([getLayerByName]): the layers of a group come before the
    group in [getAllLayers], so [getLayerByName] never returns a group
    that has a layer of that name below it. *)
Theorem getLayerByName_innermost (state_of : nat -> layer_state) (c : group_or_map)
  (root : layer_node) (name : string) (x : layer_node) :
  root_group c = Some root ->
  getLayerByName state_of (Some c) name = Some x ->
  forall d, In d (descendants x) -> layer_get state_of d "name" <> Some name.
Proof.
  intros H Hx d Hd Hname.
  rewrite (getLayerByName_postorder state_of c root name H) in Hx.
  assert (Hd' : In d (postorder_below x)).
  { apply Permutation_in with (descendants x);
      [apply Permutation_sym, postorder_below_perm | exact Hd]. }
  pose proof (first_postorder_below _ root x Hx d Hd') as Hf. cbv beta in Hf.
  rewrite (proj2 (strict_eq_iff _ _) Hname) in Hf. discriminate Hf.
Qed.

(** Extra X7 ([getLayersByProperty]): [getLayersByProperty] returns
    [undefined] for an absent map and for an empty key; otherwise, on a
    map or group, it returns the layers below it whose property [key] is
    [value], where the value [undefined] selects the layers that lack the
    property. *)
Theorem getLayersByProperty_spec (state_of : nat -> layer_state)
  (c : group_or_map) (root : layer_node) (key : string) (value : option string) :
  getLayersByProperty state_of None key value = None /\
  getLayersByProperty state_of (Some c) "" value = None /\
  (key <> "" -> root_group c = Some root ->
   exists ls, getLayersByProperty state_of (Some c) key value = Some ls /\
   forall x, In x ls <-> In x (descendants root) /\ layer_get state_of x key = value).
Proof.
  split; [reflexivity|]. split; [reflexivity|].
  intros Hk H. unfold getLayersByProperty.
  destruct (String.eqb key "") eqn:E; [apply String.eqb_eq in E; contradiction|].
  eexists. split; [reflexivity|]. intro x.
  rewrite filter_In, (getAllLayers_In c root x H), strict_eq_iff. reflexivity.
Qed.

End NameLookups.


Section NameParam.
Local Open Scope string_scope.
Variable state_of : nat -> layer_state.

Lemma name_param_test_true (x : layer_node) (name : string) :
  name_param_test state_of x name = Normal true <-> name_param_match state_of name x.
Proof.
  unfold name_param_test, name_param_match.
  destruct (is_group x).
  - split; [discriminate|]. intros [H _]. discriminate H.
  - destruct (layer_src (state_of (node_id x))) as [s|].
    + destruct (source_getParams s) as [ps|] eqn:Hp.
      * split.
        -- intro H. injection H as H.
           split; [reflexivity|]. exists s, ps. split; [reflexivity|].
           split; [exact Hp|]. now apply strict_eq_iff.
        -- intros [_ [s' [ps' [Hs [H1 H2]]]]]. injection Hs as <-.
           rewrite Hp in H1. injection H1 as <-.
           now rewrite (proj2 (strict_eq_iff _ _) H2).
      * split; [discriminate|]. intros [_ [s' [ps' [Hs [H1 _]]]]].
        injection Hs as <-. congruence.
    + split; [discriminate|]. intros [_ [s' [ps' [Hs _]]]]. discriminate Hs.
Qed.

Lemma name_param_test_throw (x : layer_node) (name : string) (e : js_error) :
  name_param_test state_of x name = Throw e ->
  e = TypeError /\ is_group x = false /\ layer_src (state_of (node_id x)) = None.
Proof.
  unfold name_param_test. destruct (is_group x); [discriminate|].
  destruct (layer_src (state_of (node_id x))); [discriminate|].
  intro H. injection H as <-. auto.
Qed.

Lemma name_param_test_sourced (x : layer_node) (name : string) :
  (is_group x = false -> layer_src (state_of (node_id x)) <> None) ->
  exists b, name_param_test state_of x name = Normal b.
Proof.
  unfold name_param_test. destruct (is_group x); [eauto|].
  intro H. destruct (layer_src (state_of (node_id x))); [eauto|].
  exfalso. now apply H.
Qed.

Lemma find_name_param_some (l : list layer_node) (name : string) (x : layer_node) :
  find_name_param state_of l name = Normal (Some x) ->
  In x l /\ name_param_match state_of name x.
Proof.
  induction l as [|y l IH]; cbn [find_name_param]; [discriminate|].
  destruct (name_param_test state_of y name) as [[|]|e] eqn:E.
  - intro H. injection H as <-. split; [now left|]. now apply name_param_test_true.
  - intro H. destruct (IH H) as [H1 H2]. split; [now right|exact H2].
  - discriminate.
Qed.

Lemma find_name_param_throw (l : list layer_node) (name : string) (e : js_error) :
  find_name_param state_of l name = Throw e ->
  e = TypeError /\
  exists x, In x l /\ is_group x = false /\ layer_src (state_of (node_id x)) = None.
Proof.
  induction l as [|y l IH]; cbn [find_name_param]; [discriminate|].
  destruct (name_param_test state_of y name) as [[|]|e'] eqn:E.
  - discriminate.
  - intro H. destruct (IH H) as [He [x [Hx Hs]]]. split; [exact He|].
    exists x. split; [now right|exact Hs].
  - intro H. injection H as <-. apply name_param_test_throw in E.
    destruct E as [He Hs]. split; [exact He|]. exists y. split; [now left|exact Hs].
Qed.

Lemma find_name_param_sourced (l : list layer_node) (name : string) :
  (forall x, In x l -> is_group x = false -> layer_src (state_of (node_id x)) <> None) ->
  exists r, find_name_param state_of l name = Normal r /\
  (r = None <-> forall x, In x l -> ~ name_param_match state_of name x).
Proof.
  induction l as [|y l IH]; intro Hs; cbn [find_name_param].
  - exists None. split; [reflexivity|]. split; [intros _ x []|reflexivity].
  - destruct (name_param_test_sourced y name (Hs y (or_introl eq_refl))) as [b Hb].
    rewrite Hb. destruct b.
    + exists (Some y). split; [reflexivity|]. split; [discriminate|].
      intro Hall. exfalso. apply (Hall y (or_introl eq_refl)).
      now apply name_param_test_true.
    + destruct IH as [r [Hr Hiff]]; [intros x Hx; apply Hs; now right|].
      exists r. split; [exact Hr|]. rewrite Hiff. split.
      * intros Hall x [<-|Hx] Hm; [|exact (Hall x Hx Hm)].
        apply name_param_test_true in Hm. congruence.
      * intros Hall x Hx. apply Hall. now right.
Qed.

Lemma find_name_param_unmatched (l : list layer_node) (name : string) :
  (forall x, In x l -> ~ name_param_match state_of name x) ->
  (exists x, In x l /\ is_group x = false /\ layer_src (state_of (node_id x)) = None) ->
  find_name_param state_of l name = Throw TypeError.
Proof.
  induction l as [|y l IH]; intros Hm [x [Hx Hs]]; [destruct Hx|].
  cbn [find_name_param].
  destruct (name_param_test state_of y name) as [[|]|e] eqn:E.
  - exfalso. apply (Hm y (or_introl eq_refl)). now apply name_param_test_true.
  - destruct Hx as [<-|Hx].
    + exfalso. unfold name_param_test in E. destruct Hs as [Hg Hn].
      rewrite Hg, Hn in E. discriminate E.
    + apply IH; [intros z Hz; apply Hm; now right|]. now exists x.
  - apply name_param_test_throw in E. now rewrite (proj1 E).
Qed.

(** Extra X8 ([getLayerByNameParam]): a layer that [getLayerByNameParam]
    returns for a map or group lies below it, is not a group, and has a
    source with a [getParams] method whose result has the given name as
    its [LAYERS] parameter. *)
Theorem getLayerByNameParam_found (c : group_or_map) (root : layer_node)
  (name : string) (x : layer_node) :
  root_group c = Some root ->
  getLayerByNameParam state_of (Some c) name = Normal (Some x) ->
  In x (descendants root) /\ name_param_match state_of name x.
Proof.
  intros H Hx. apply find_name_param_some in Hx. destruct Hx as [Hx Hm].
  split; [|exact Hm]. now apply (getAllLayers_In c root x H).
Qed.

(** Extra X9 ([getLayerByNameParam]): when every layer below the map or
    group that is not a group has a source, [getLayerByNameParam] does not
    throw, and it returns [undefined] exactly when no such layer has a
    source with a [getParams] method whose result has the given [LAYERS]
    parameter. *)
Theorem getLayerByNameParam_sourced (c : group_or_map) (root : layer_node)
  (name : string) :
  root_group c = Some root ->
  (forall x, In x (descendants root) -> is_group x = false ->
             layer_src (state_of (node_id x)) <> None) ->
  exists r, getLayerByNameParam state_of (Some c) name = Normal r /\
  (r = None <-> forall x, In x (descendants root) -> ~ name_param_match state_of name x).
Proof.
  intros H Hs. unfold getLayerByNameParam.
  destruct (find_name_param_sourced (getAllLayers (Some c) default_filter) name)
    as [r [Hr Hiff]].
  { intros x Hx. apply Hs. now apply (getAllLayers_In c root x H). }
  exists r. split; [exact Hr|]. rewrite Hiff.
  split; intros Hall x Hx; apply Hall; now apply (getAllLayers_In c root x H).
Qed.

(** Extra X10 ([getLayerByNameParam]): [getLayerByNameParam] throws only a
    TypeError, and only when some layer below the map or group that is not
    a group has no source; when no layer matches the name and such a layer
    exists, it throws instead of returning [undefined]. *)
Theorem getLayerByNameParam_throws (c : group_or_map) (root : layer_node)
  (name : string) :
  root_group c = Some root ->
  (forall e, getLayerByNameParam state_of (Some c) name = Throw e ->
   e = TypeError /\ exists x, In x (descendants root) /\ is_group x = false /\
                              layer_src (state_of (node_id x)) = None) /\
  ((forall x, In x (descendants root) -> ~ name_param_match state_of name x) ->
   (exists x, In x (descendants root) /\ is_group x = false /\
              layer_src (state_of (node_id x)) = None) ->
   getLayerByNameParam state_of (Some c) name = Throw TypeError).
Proof.
  intro H. split.
  - intros e He. apply find_name_param_throw in He. destruct He as [He [x [Hx Hs]]].
    split; [exact He|]. exists x. split; [|exact Hs].
    now apply (getAllLayers_In c root x H).
  - intros Hm [x [Hx Hs]]. apply find_name_param_unmatched.
    + intros y Hy. apply Hm. now apply (getAllLayers_In c root y H).
    + exists x. split; [|exact Hs]. now apply (getAllLayers_In c root x H).
Qed.

(** Extra X11 ([getLayerByFeature]): a layer that [getLayerByFeature]
    returns comes from the first namespace, in the given order, for which
    [getLayerByNameParam] finds a layer for the qualified name
    [namespace:featureTypeName]: every earlier namespace found nothing,
    and the layer's [LAYERS] parameter is that qualified name. *)
Theorem getLayerByFeature_first_namespace (feature : Type)
  (getFeatureTypeName : feature -> string) (map : option group_or_map)
  (f : feature) (namespaces : list string) (x : layer_node) :
  getLayerByFeature state_of feature getFeatureTypeName map f namespaces
    = Normal (Some x) ->
  exists pre ns post, namespaces = (pre ++ ns :: post)%list /\
    Forall (fun p => getLayerByNameParam state_of map (p ++ ":" ++ getFeatureTypeName f)
                     = Normal None) pre /\
    getLayerByNameParam state_of map (ns ++ ":" ++ getFeatureTypeName f)
      = Normal (Some x) /\
    name_param_match state_of (ns ++ ":" ++ getFeatureTypeName f) x.
Proof.
  unfold getLayerByFeature. generalize (getFeatureTypeName f) as t. intro t.
  induction namespaces as [|ns rest IH]; cbn [find_by_namespaces]; [discriminate|].
  destruct (getLayerByNameParam state_of map (ns ++ ":" ++ t)) as [[y|]|e] eqn:E.
  - intro H. injection H as <-. exists [], ns, rest.
    split; [reflexivity|]. split; [constructor|]. split; [exact E|].
    exact (proj2 (find_name_param_some _ _ _ E)).
  - intro H. destruct (IH H) as [pre [ns' [post [Heq [Hpre Hrest]]]]].
    exists (ns :: pre), ns', post. split; [now rewrite Heq|].
    split; [now constructor|exact Hrest].
  - discriminate.
Qed.

End NameParam.

Lemma uint_to_string_inj (d d' : Decimal.uint) :
  uint_to_string d = uint_to_string d' -> d = d'.
Proof.
  revert d'. induction d; intros d'; destruct d'; cbn [uint_to_string];
    intro H; try discriminate H; try reflexivity;
    injection H as H; f_equal; auto.
Qed.

Lemma nat_toString_inj (a b : nat) : nat_toString a = nat_toString b -> a = b.
Proof.
  intro H. apply DecimalNat.Unsigned.to_uint_inj, uint_to_string_inj, H.
Qed.

Lemma NoDup_map_inj {A B : Type} (f : A -> B) (l : list A) (x y : A) :
  NoDup (map f l) -> In x l -> In y l -> f x = f y -> x = y.
Proof.
  induction l as [|a l IH]; [intros _ []|].
  cbn [map]. intros Hnd Hx Hy Hf. inversion Hnd as [|b l' Hna Hnd' Hb]. subst.
  destruct Hx as [<-|Hx], Hy as [<-|Hy].
  - reflexivity.
  - exfalso. apply Hna. rewrite Hf. now apply in_map.
  - exfalso. apply Hna. rewrite <- Hf. now apply in_map.
  - now apply IH.
Qed.

(** Extra X12 ([getLayerByOlUid]): when the layers below a map or group
    have distinct [ol_uid]s, looking up the decimal string of the [ol_uid]
    of any of them with [getLayerByOlUid] returns that very layer. *)
Theorem getLayerByOlUid_roundtrip (c : group_or_map) (root x : layer_node) :
  root_group c = Some root ->
  NoDup (map node_id (descendants root)) ->
  In x (descendants root) ->
  getLayerByOlUid (Some c) (nat_toString (node_id x)) = Some x.
Proof.
  intros H Hnd Hx. unfold getLayerByOlUid.
  set (p := fun l => String.eqb (nat_toString (node_id x)) (nat_toString (node_id l))).
  destruct (find p (getAllLayers (Some c) default_filter)) as [y|] eqn:E.
  - apply find_some in E. destruct E as [Hy Py].
    apply (getAllLayers_In c root y H) in Hy.
    unfold p in Py. apply String.eqb_eq, nat_toString_inj in Py.
    f_equal. symmetry. exact (NoDup_map_inj node_id _ x y Hnd Hx Hy Py).
  - apply (getAllLayers_In c root x H) in Hx.
    apply (find_none _ _ E) in Hx. unfold p in Hx.
    rewrite String.eqb_refl in Hx. discriminate Hx.
Qed.


Lemma animate_step (start duration E dx dy : num) (style : bool)
  (ev : compose_event) (s : anim_state) :
  let finished := num_lt duration (num_sub (frame_time ev) start) ||
                  num_ge (actualFrames s) E in
  let s' := animate start duration E dx dy style ev s in
  geom s' = translate dx dy (geom s) /\
  listening s' = listening s /\
  resolved s' = resolved s /\
  actualFrames s' = (if finished then actualFrames s
                     else num_add (actualFrames s) (Fin 1)) /\
  thrown s' = (if finished then (thrown s ++ [TypeError])%list else thrown s).
Proof.
  cbv zeta. unfold animate, OlObservable_unByKey.
  destruct (num_lt duration (num_sub (frame_time ev) start) ||
            num_ge (actualFrames s) E); cbn; repeat split.
Qed.

(** Running the registered listener on a list of frames. *)
Definition run_animate (start duration E dx dy : num) (style : bool)
  (evs : list compose_event) (s : anim_state) : anim_state :=
  fold_left (fun s ev => animate start duration E dx dy style ev s) evs s.

Lemma fold_dispatch_animate (start duration E dx dy : num) (style : bool)
  (evs : list compose_event) :
  forall s, listening s = true ->
  fold_left (dispatch start duration E dx dy style) evs s
  = run_animate start duration E dx dy style evs s.
Proof.
  induction evs as [|ev r IH]; intros s Hl; [reflexivity|].
  cbn [fold_left]. unfold run_animate. cbn [fold_left].
  unfold dispatch at 2. rewrite Hl. apply IH.
  destruct (animate_step start duration E dx dy style ev s) as [_ [H _]].
  cbv zeta in H. now rewrite H.
Qed.

Lemma moveFeature_run (resolution : option num) (g0 : geometry) (duration : num)
  (pixel : list num) (style : bool) (start : num) (evs : list compose_event) :
  moveFeature resolution g0 duration pixel style start evs
  = run_animate start duration (expected_frames duration)
      (move_delta pixel resolution duration) (move_delta pixel resolution duration)
      style evs (mkAnim g0 (Fin 0) true false [] []).
Proof. unfold moveFeature. now apply fold_dispatch_animate. Qed.

Lemma run_animate_geom_flags (start duration E dx dy : num) (style : bool)
  (evs : list compose_event) :
  forall s,
  let s' := run_animate start duration E dx dy style evs s in
  geom s' = Nat.iter (List.length evs) (translate dx dy) (geom s) /\
  listening s' = listening s /\ resolved s' = resolved s.
Proof.
  induction evs as [|ev r IH]; intro s; [repeat split|].
  cbv zeta. unfold run_animate. cbn [fold_left List.length].
  fold (run_animate start duration E dx dy style r (animate start duration E dx dy style ev s)).
  destruct (animate_step start duration E dx dy style ev s) as [Hg [Hl [Hr _]]].
  destruct (IH (animate start duration E dx dy style ev s)) as [Hg' [Hl' Hr']].
  repeat split.
  - rewrite Hg', Hg. symmetry. apply Nat.iter_succ_r.
  - now rewrite Hl', Hl.
  - now rewrite Hr', Hr.
Qed.


Lemma Qle_bool_frame (e : Q) (j : nat) :
  Qle_bool e (inject_Z (Z.of_nat j)) = true <-> (Z.to_nat (Qceiling e) <= j)%nat.
Proof.
  rewrite Qle_bool_iff. split.
  - intro H. apply Qceiling_resp_le in H. rewrite Qceiling_Z in H. lia.
  - intro H. apply Qle_trans with (inject_Z (Qceiling e)); [apply Qle_ceiling|].
    rewrite <- Zle_Qle. lia.
Qed.

Lemma Qle_bool_compat (e a b : Q) : a == b -> Qle_bool e a = Qle_bool e b.
Proof.
  intro H. destruct (Qle_bool e b) eqn:E.
  - apply Qle_bool_iff in E. apply Qle_bool_iff. lra.
  - destruct (Qle_bool e a) eqn:E'; [|reflexivity].
    apply Qle_bool_iff in E'. rewrite <- E. symmetry. apply Qle_bool_iff. lra.
Qed.

Lemma expected_frames_Fin (q : Q) : expected_frames (Fin q) = Fin (q / 1000 * 60).
Proof. reflexivity. Qed.

Section Frames.
Variables (start duration dx dy : num) (style : bool) (e : Q).

Lemma frames_on_time (evs : list compose_event) :
  forall (j : nat) (a : Q) (s : anim_state),
  actualFrames s = Fin a -> a == inject_Z (Z.of_nat j) ->
  (j <= Z.to_nat (Qceiling e))%nat ->
  Forall (fun ev => num_lt duration (num_sub (frame_time ev) start) = false) evs ->
  let s' := run_animate start duration (Fin e) dx dy style evs s in
  (exists a', actualFrames s' = Fin a' /\
     a' == inject_Z (Z.of_nat (Nat.min (j + List.length evs) (Z.to_nat (Qceiling e))))) /\
  thrown s' = (thrown s ++ repeat TypeError (j + List.length evs - Z.to_nat (Qceiling e)))%list.
Proof.
  induction evs as [|ev r IH]; intros j a s Ha Hj Hn Hon; cbv zeta.
  - cbn [List.length]. unfold run_animate. cbn [fold_left].
    rewrite Nat.add_0_r, Nat.min_l by exact Hn.
    replace (j - Z.to_nat (Qceiling e))%nat with 0%nat by lia.
    split; [now exists a|]. symmetry. apply app_nil_r.
  - inversion Hon as [|ev' r' Hev Hr]; subst ev' r'.
    unfold run_animate. cbn [fold_left List.length].
    fold (run_animate start duration (Fin e) dx dy style r
            (animate start duration (Fin e) dx dy style ev s)).
    destruct (animate_step start duration (Fin e) dx dy style ev s)
      as [_ [_ [_ [Ha' Ht']]]].
    cbv zeta in Ha', Ht'. rewrite Hev, Ha in Ha', Ht'.
    cbn [orb num_ge num_le num_add] in Ha', Ht'.
    rewrite (Qle_bool_compat e a _ Hj) in Ha', Ht'.
    destruct (Nat.eq_dec j (Z.to_nat (Qceiling e))) as [Heq|Hjn].
    + assert (Hb : Qle_bool e (inject_Z (Z.of_nat j)) = true)
        by (apply Qle_bool_frame; lia).
      rewrite Hb in Ha', Ht'.
      destruct (IH j a (animate start duration (Fin e) dx dy style ev s) Ha' Hj Hn Hr)
        as [[a' [H1 H2]] H3].
      split.
      * exists a'. split; [exact H1|]. rewrite H2.
        rewrite !Nat.min_r by lia. reflexivity.
      * rewrite H3, Ht', <- app_assoc. f_equal.
        replace (j + S (List.length r) - Z.to_nat (Qceiling e))%nat
          with (S (j + List.length r - Z.to_nat (Qceiling e))) by lia.
        reflexivity.
    + assert (Hb : Qle_bool e (inject_Z (Z.of_nat j)) = false).
      { destruct (Qle_bool e _) eqn:B; [|reflexivity].
        apply Qle_bool_frame in B. lia. }
      rewrite Hb in Ha', Ht'.
      destruct (IH (S j) (a + 1) (animate start duration (Fin e) dx dy style ev s) Ha')
        as [[a' [H1 H2]] H3].
      { rewrite Hj, Nat2Z.inj_succ, <- Z.add_1_r, inject_Z_plus. reflexivity. }
      { lia. }
      { exact Hr. }
      split.
      * exists a'. split; [exact H1|]. rewrite H2.
        replace (S j + List.length r)%nat with (j + S (List.length r))%nat by lia.
        reflexivity.
      * rewrite H3, Ht'. f_equal. f_equal. lia.
Qed.

End Frames.

Lemma iter_translate_moved (d : Q) (k : nat) (g : geometry) :
  (forall c, In c (coordinates g) -> exists x y, c = (Fin x, Fin y)) ->
  Forall2 (moved_by (inject_Z (Z.of_nat k) * d)) (coordinates g)
          (coordinates (Nat.iter k (translate (Fin d) (Fin d)) g)).
Proof.
  intro Hfin. induction k as [|k IH].
  - change (Nat.iter 0 (translate (Fin d) (Fin d)) g) with g.
    induction (coordinates g) as [|c cs IHc]; [constructor|].
    constructor.
    + destruct (Hfin c (or_introl eq_refl)) as [x [y ->]].
      exists x, y, x, y. change (inject_Z (Z.of_nat 0)) with 0. repeat split; lra.
    + apply IHc. intros c' Hc'. apply Hfin. now right.
  - change (Nat.iter (S k) (translate (Fin d) (Fin d)) g)
      with (translate (Fin d) (Fin d) (Nat.iter k (translate (Fin d) (Fin d)) g)).
    unfold translate at 1. cbn [coordinates].
    revert IH. generalize (coordinates (Nat.iter k (translate (Fin d) (Fin d)) g)).
    intros l IH. clear Hfin. induction IH as [|c c' cs cs' Hm _ IHl]; [constructor|].
    cbn [List.map]. constructor; [|exact IHl].
    destruct Hm as [x [y [x' [y' [-> [-> [Hx Hy]]]]]]].
    exists x, y, (x' + d), (y' + d). cbn [fst snd num_add].
    rewrite Nat2Z.inj_succ, <- Z.add_1_r, inject_Z_plus.
    change (inject_Z 1) with 1. set (K := inject_Z (Z.of_nat k)) in *.
    repeat split; lra.
Qed.

Lemma num_mul_NaN_l (y : num) : num_mul NaN y = NaN.
Proof. destruct y; reflexivity. Qed.

Lemma num_div_NaN_l (y : num) : num_div NaN y = NaN.
Proof. destruct y; reflexivity. Qed.

Lemma num_add_NaN_r (x : num) : num_add x NaN = NaN.
Proof. destruct x; reflexivity. Qed.

Lemma move_delta_Fin (p r q : Q) :
  0 < q -> move_delta [Fin p] (Some (Fin r)) (Fin q) = Fin (p * r / (q / 1000 * 60)).
Proof.
  intro Hq. unfold move_delta. rewrite expected_frames_Fin.
  cbn [array_to_number to_number num_mul num_div].
  rewrite Qeq_bool_pos; [reflexivity|].
  apply Qmult_lt_0_compat; [|reflexivity].
  apply Qlt_shift_div_l; [reflexivity|]. lra.
Qed.

(** Extra X13 ([moveFeature]): [unByKey] never returns, so the listener
    is never removed and the promise is never resolved; the feature is
    translated by [(deltaX, deltaY)] on every frame the map renders, not
    only on the first [expectedFrames] ones. *)
Theorem moveFeature_never_resolves (resolution : option num) (g0 : geometry)
  (duration : num) (pixel : list num) (style : bool) (start : num)
  (evs : list compose_event) :
  let s := moveFeature resolution g0 duration pixel style start evs in
  resolved s = false /\ listening s = true /\
  geom s = Nat.iter (List.length evs)
             (translate (move_delta pixel resolution duration)
                        (move_delta pixel resolution duration)) g0.
Proof.
  cbv zeta. rewrite moveFeature_run.
  destruct (run_animate_geom_flags start duration (expected_frames duration)
              (move_delta pixel resolution duration) (move_delta pixel resolution duration)
              style evs (mkAnim g0 (Fin 0) true false [] [])) as [Hg [Hl Hr]].
  cbv zeta in Hg, Hl, Hr. rewrite Hg, Hl, Hr. repeat split.
Qed.

(** Extra X14 ([moveFeature]): for a finite duration [q] and frames that
    all arrive within it, [actualFrames] counts up to [last_frame q] (the
    least whole number not below [expectedFrames]) and stops there: each
    frame from that one on throws a TypeError out of [animate], so with
    [m] frames the counter is [min m (last_frame q)] and
    [m - last_frame q] errors are thrown. *)
Theorem moveFeature_on_time (resolution : option num) (g0 : geometry) (q : Q)
  (pixel : list num) (style : bool) (start : num) (evs : list compose_event) :
  Forall (fun ev => num_lt (Fin q) (num_sub (frame_time ev) start) = false) evs ->
  let s := moveFeature resolution g0 (Fin q) pixel style start evs in
  (exists a, actualFrames s = Fin a /\
     a == inject_Z (Z.of_nat (Nat.min (List.length evs) (last_frame q)))) /\
  thrown s = repeat TypeError (List.length evs - last_frame q).
Proof.
  intro Hon. cbv zeta. rewrite moveFeature_run, expected_frames_Fin.
  destruct (frames_on_time start (Fin q) (move_delta pixel resolution (Fin q))
              (move_delta pixel resolution (Fin q)) style (q / 1000 * 60) evs 0 0
              (mkAnim g0 (Fin 0) true false [] []) eq_refl) as [H1 H2].
  { reflexivity. }
  { lia. }
  { exact Hon. }
  unfold last_frame. split; [exact H1|]. exact H2.
Qed.

(** Extra X15 ([moveFeature]): with a duration [q > 0], finite
    coordinates, a one-element [pixel] array [[p]] and a resolution [r],
    after [m] frames each coordinate has moved by
    [m * p * r / (q / 1000 * 60)] on both axes, for every [m]: the
    displacement grows with the number of frames rendered, past
    [p * r]. *)
Theorem moveFeature_displacement (r p q : Q) (g0 : geometry) (style : bool)
  (start : num) (evs : list compose_event) :
  0 < q ->
  (forall c, In c (coordinates g0) -> exists x y, c = (Fin x, Fin y)) ->
  Forall2 (moved_by (inject_Z (Z.of_nat (List.length evs)) * (p * r / (q / 1000 * 60))))
          (coordinates g0)
          (coordinates (geom (moveFeature (Some (Fin r)) g0 (Fin q) [Fin p] style start evs))).
Proof.
  intros Hq Hfin. rewrite moveFeature_run, move_delta_Fin by exact Hq.
  destruct (run_animate_geom_flags start (Fin q) (expected_frames (Fin q))
              (Fin (p * r / (q / 1000 * 60))) (Fin (p * r / (q / 1000 * 60)))
              style evs (mkAnim g0 (Fin 0) true false [] [])) as [Hg _].
  cbv zeta in Hg. rewrite Hg. cbn [geom].
  apply iter_translate_moved. exact Hfin.
Qed.


(** Extra X17 ([moveFeature]): a [pixel] array of two or more numbers
    (such as [[dx, dy]]) makes [pixel * resolution] [NaN]: once a frame
    has been drawn, every coordinate of the feature is [NaN]. *)
Theorem moveFeature_pixel_array (resolution : option num) (g0 : geometry)
  (duration : num) (pixel : list num) (style : bool) (start : num)
  (evs : list compose_event) :
  (2 <= List.length pixel)%nat -> evs <> [] ->
  Forall (fun c => c = (NaN, NaN))
         (coordinates (geom (moveFeature resolution g0 duration pixel style start evs))).
Proof.
  intros Hp Hev.
  assert (Hd : move_delta pixel resolution duration = NaN).
  { destruct pixel as [|a [|b l]]; cbn [List.length] in Hp; [lia|lia|].
    unfold move_delta. cbn [array_to_number].
    rewrite num_mul_NaN_l. apply num_div_NaN_l. }
  rewrite moveFeature_run, Hd.
  destruct (run_animate_geom_flags start duration (expected_frames duration) NaN NaN
              style evs (mkAnim g0 (Fin 0) true false [] [])) as [Hg _].
  cbv zeta in Hg. rewrite Hg. cbn [geom].
  destruct evs as [|ev r]; [contradiction|]. cbn [List.length].
  rewrite Nat.iter_succ. unfold translate at 1. cbn [coordinates].
  apply Forall_forall. intros c Hc. apply in_map_iff in Hc.
  destruct Hc as [c' [<- _]]. now rewrite !num_add_NaN_r.
Qed.

(** ** Instances of the properties of the lookups and of [moveFeature] *)

Lemma getLayerByName_found_witness :
  root_group (MapArg example_map) = Some (getLayerGroup example_map) /\
  ((getLayerByName example_state (Some (MapArg example_map)) "roads"%string = None <->
    forall x, In x (descendants (getLayerGroup example_map)) ->
              layer_get example_state x "name"%string <> Some "roads"%string) /\
   (forall x, getLayerByName example_state (Some (MapArg example_map)) "roads"%string
              = Some x ->
    In x (descendants (getLayerGroup example_map)) /\
    layer_get example_state x "name"%string = Some "roads"%string)).
Proof.
  split; [reflexivity|]. apply getLayerByName_found. reflexivity.
Defined.

Lemma getLayerByName_innermost_witness :
  root_group (MapArg example_map) = Some (getLayerGroup example_map) /\
  getLayerByName example_state (Some (MapArg example_map)) "base"%string
    = Some (Group 2 [Leaf 3; Leaf 4]) /\
  (forall d, In d (descendants (Group 2 [Leaf 3; Leaf 4])) ->
   layer_get example_state d "name"%string <> Some "base"%string).
Proof.
  split; [reflexivity|]. split; [reflexivity|].
  apply (getLayerByName_innermost example_state (MapArg example_map)
           (getLayerGroup example_map)); reflexivity.
Defined.

Lemma getLayersByProperty_spec_witness :
  ("name"%string <> ""%string /\
   root_group (MapArg example_map) = Some (getLayerGroup example_map)) /\
  exists ls, getLayersByProperty example_state (Some (MapArg example_map))
               "name"%string (Some "roads"%string) = Some ls /\
  forall x, In x ls <-> In x (descendants (getLayerGroup example_map)) /\
            layer_get example_state x "name"%string = Some "roads"%string.
Proof.
  split; [split; [discriminate|reflexivity]|].
  apply (getLayersByProperty_spec example_state (MapArg example_map)
           (getLayerGroup example_map)); [discriminate|reflexivity].
Defined.

Lemma getLayerByNameParam_found_witness :
  root_group (MapArg example_map) = Some (getLayerGroup example_map) /\
  getLayerByNameParam example_state (Some (MapArg example_map)) "topp:roads"%string
    = Normal (Some (Leaf 3)) /\
  In (Leaf 3) (descendants (getLayerGroup example_map)) /\
  name_param_match example_state "topp:roads"%string (Leaf 3).
Proof.
  split; [reflexivity|]. split; [reflexivity|].
  apply (getLayerByNameParam_found example_state (MapArg example_map)); reflexivity.
Defined.

Lemma getLayerByNameParam_sourced_witness :
  root_group (MapArg example_map_sourced) = Some (getLayerGroup example_map_sourced) /\
  (forall x, In x (descendants (getLayerGroup example_map_sourced)) ->
             is_group x = false -> layer_src (example_state (node_id x)) <> None) /\
  exists r, getLayerByNameParam example_state (Some (MapArg example_map_sourced))
              "topp:rivers"%string = Normal r /\
  (r = None <-> forall x, In x (descendants (getLayerGroup example_map_sourced)) ->
                ~ name_param_match example_state "topp:rivers"%string x).
Proof.
  assert (Hs : forall x, In x (descendants (getLayerGroup example_map_sourced)) ->
               is_group x = false -> layer_src (example_state (node_id x)) <> None).
  { intros x Hx Hg. cbn in Hx.
    repeat destruct Hx as [<-|Hx]; try contradiction; try discriminate Hg;
      cbn; discriminate. }
  split; [reflexivity|]. split; [exact Hs|].
  apply getLayerByNameParam_sourced; [reflexivity|exact Hs].
Defined.

Lemma getLayerByNameParam_throws_witness :
  root_group (MapArg example_map) = Some (getLayerGroup example_map) /\
  (forall x, In x (descendants (getLayerGroup example_map)) ->
             ~ name_param_match example_state "topp:rivers"%string x) /\
  (exists x, In x (descendants (getLayerGroup example_map)) /\ is_group x = false /\
             layer_src (example_state (node_id x)) = None) /\
  getLayerByNameParam example_state (Some (MapArg example_map)) "topp:rivers"%string
    = Throw TypeError.
Proof.
  assert (Hm : forall x, In x (descendants (getLayerGroup example_map)) ->
               ~ name_param_match example_state "topp:rivers"%string x).
  { intros x Hx [Hg [s [ps [Hs [Hp Hl]]]]]. cbn in Hx.
    repeat destruct Hx as [<-|Hx]; try contradiction; try discriminate Hg;
      cbn in Hs; try discriminate Hs; injection Hs as <-;
      cbn in Hp; injection Hp as <-; cbn in Hl; discriminate Hl. }
  assert (He : exists x, In x (descendants (getLayerGroup example_map)) /\
               is_group x = false /\ layer_src (example_state (node_id x)) = None).
  { exists (Leaf 4). split; [cbn; tauto|]. split; reflexivity. }
  split; [reflexivity|]. split; [exact Hm|]. split; [exact He|].
  apply (proj2 (getLayerByNameParam_throws example_state (MapArg example_map)
                  (getLayerGroup example_map) "topp:rivers"%string eq_refl)).
  - exact Hm.
  - exact He.
Defined.

Lemma getLayerByFeature_first_namespace_witness :
  getLayerByFeature example_state string (fun t => t) (Some (MapArg example_map_sourced))
    "roads"%string ["osm"; "topp"]%string = Normal (Some (Leaf 3)) /\
  exists pre ns post, ["osm"; "topp"]%string = (pre ++ ns :: post)%list /\
    Forall (fun p => getLayerByNameParam example_state (Some (MapArg example_map_sourced))
                       (p ++ ":" ++ "roads")%string = Normal None) pre /\
    getLayerByNameParam example_state (Some (MapArg example_map_sourced))
      (ns ++ ":" ++ "roads")%string = Normal (Some (Leaf 3)) /\
    name_param_match example_state (ns ++ ":" ++ "roads")%string (Leaf 3).
Proof.
  split; [reflexivity|].
  apply (getLayerByFeature_first_namespace example_state string (fun t => t)).
  reflexivity.
Defined.

Lemma getLayerByOlUid_roundtrip_witness :
  root_group (MapArg example_map) = Some (getLayerGroup example_map) /\
  NoDup (map node_id (descendants (getLayerGroup example_map))) /\
  In (Leaf 3) (descendants (getLayerGroup example_map)) /\
  getLayerByOlUid (Some (MapArg example_map)) "3"%string = Some (Leaf 3).
Proof.
  assert (Hnd : NoDup (map node_id (descendants (getLayerGroup example_map)))).
  { cbn. repeat constructor; cbn; intuition lia. }
  assert (Hin : In (Leaf 3) (descendants (getLayerGroup example_map))).
  { cbn. tauto. }
  split; [reflexivity|]. split; [exact Hnd|]. split; [exact Hin|].
  exact (getLayerByOlUid_roundtrip (MapArg example_map) (getLayerGroup example_map)
           (Leaf 3) eq_refl Hnd Hin).
Defined.

Lemma moveFeature_on_time_witness :
  Forall (fun ev => num_lt (Fin 50) (num_sub (frame_time ev) (Fin 0)) = false)
         ([frame_at 0; frame_at 10; frame_at 20; frame_at 30; frame_at 40]) /\
  last_frame 50 = 3%nat /\
  let s := moveFeature (Some (Fin 2)) (mkGeom PointKind [(Fin 0, Fin 0)]) (Fin 50)
             [Fin 3] false (Fin 0)
             ([frame_at 0; frame_at 10; frame_at 20; frame_at 30; frame_at 40]) in
  (exists a, actualFrames s = Fin a /\
     a == inject_Z (Z.of_nat (Nat.min (List.length
            ([frame_at 0; frame_at 10; frame_at 20; frame_at 30; frame_at 40]))
            (last_frame 50)))) /\
  thrown s = repeat TypeError (List.length
               ([frame_at 0; frame_at 10; frame_at 20; frame_at 30; frame_at 40])
               - last_frame 50).
Proof.
  assert (Ho : Forall (fun ev => num_lt (Fin 50) (num_sub (frame_time ev) (Fin 0)) = false)
                      ([frame_at 0; frame_at 10; frame_at 20; frame_at 30; frame_at 40])).
  { repeat constructor. }
  split; [exact Ho|]. split; [vm_compute; reflexivity|].
  exact (moveFeature_on_time (Some (Fin 2)) (mkGeom PointKind [(Fin 0, Fin 0)]) 50
           [Fin 3] false (Fin 0)
           ([frame_at 0; frame_at 10; frame_at 20; frame_at 30; frame_at 40]) Ho).
Defined.

Lemma moveFeature_displacement_witness :
  0 < 50 /\
  (forall c, In c (coordinates (mkGeom PointKind [(Fin 0, Fin 0)])) ->
             exists x y, c = (Fin x, Fin y)) /\
  inject_Z (Z.of_nat (List.length
    ([frame_at 0; frame_at 10; frame_at 20; frame_at 30; frame_at 40])))
    * (3 * 2 / (50 / 1000 * 60)) == 10 /\
  Forall2 (moved_by (inject_Z (Z.of_nat (List.length
             ([frame_at 0; frame_at 10; frame_at 20; frame_at 30; frame_at 40])))
             * (3 * 2 / (50 / 1000 * 60))))
          (coordinates (mkGeom PointKind [(Fin 0, Fin 0)]))
          (coordinates (geom (moveFeature (Some (Fin 2)) (mkGeom PointKind [(Fin 0, Fin 0)])
             (Fin 50) [Fin 3] false (Fin 0)
             ([frame_at 0; frame_at 10; frame_at 20; frame_at 30; frame_at 40])))).
Proof.
  assert (Hq : 0 < 50) by lra.
  assert (Hf : forall c, In c (coordinates (mkGeom PointKind [(Fin 0, Fin 0)])) ->
                         exists x y, c = (Fin x, Fin y)).
  { intros c [<-|[]]. eauto. }
  split; [exact Hq|]. split; [exact Hf|]. split; [vm_compute; reflexivity|].
  exact (moveFeature_displacement 2 3 50 (mkGeom PointKind [(Fin 0, Fin 0)]) false (Fin 0)
           ([frame_at 0; frame_at 10; frame_at 20; frame_at 30; frame_at 40]) Hq Hf).
Defined.

Lemma moveFeature_pixel_array_witness :
  (2 <= List.length [Fin 3; Fin 4])%nat /\ [frame_at 0] <> [] /\
  Forall (fun c => c = (NaN, NaN))
         (coordinates (geom (moveFeature (Some (Fin 2)) (mkGeom PointKind [(Fin 0, Fin 0)])
                               (Fin 1000) [Fin 3; Fin 4] false (Fin 0) [frame_at 0]))).
Proof.
  split; [cbn; lia|]. split; [discriminate|].
  apply moveFeature_pixel_array; [cbn; lia|discriminate].
Defined.
